(** * Route search on the station network: Dijkstra, A-star, haversine, path formatting

    A shallow embedding of [find_route.py].

    Conventions of the embedding.
    - Python numbers that stand for distances (the edge weights read from the
      network file, the accumulated costs, the values of [haversine]) are read
      as real numbers [R]; rounding of binary floating point is outside the
      model.  [float('inf')] is the constructor [Inf] of [cost].
    - A Python [dict] with string keys is an association list read by its
      first matching key ([dict_get]); [d[k]] on a missing key is [None]
      (the [KeyError] of Python).
    - [heapq] is a bag of tuples from which [heappop] removes the smallest
      tuple in Python's tuple order (element-wise, first difference decides).
      That order is total on the tuples pushed here ([a_entry_ltb_total]), so
      the smallest tuple is unique as a value.
    - A [while] loop is iterated by [while_loop] under a fuel bound; the
      theorems [dijkstra_returns] and [a_star_returns] show that the bound
      chosen in [dijkstra] and [a_star] is never reached. *)

From Stdlib Require Import Reals Lra List String Ascii Bool Arith Lia ZArith.
Import ListNotations.

Local Open Scope R_scope.

(** ** Python values *)

Definition station := string.
Definition line_id := string.

(** An edge record of the network file: [{'to': ..., 'distance': ..., 'line': ...}]. *)
Record edge : Type := mkEdge {
  to : station;
  distance : R;
  line : line_id
}.

Arguments mkEdge to%_string distance%_R line%_string.

(** The ['coords'] entry of a station record: [{'lat': ..., 'lon': ...}]. *)
Record coords : Type := mkCoords {
  lat : R;
  lon : R
}.

(** [float('inf')] next to the finite costs. *)
Inductive cost : Type :=
| Fin (d : R)
| Inf.

(** *** Dictionaries with string keys *)

Definition dict (V : Type) : Type := list (string * V).

Fixpoint dict_get {V : Type} (d : dict V) (k : string) : option V :=
  match d with
  | [] => None
  | (k', v) :: d' => if String.eqb k' k then Some v else dict_get d' k
  end.

(** [k in d] *)
Definition dict_contains {V : Type} (d : dict V) (k : string) : bool :=
  existsb (fun kv => String.eqb (fst kv) k) d.

(** [d.get(k, default)] *)
Definition dict_get_default {V : Type} (d : dict V) (k : string) (default : V) : V :=
  match dict_get d k with
  | Some v => v
  | None => default
  end.

(** [d[k] = v] *)
Fixpoint dict_set {V : Type} (d : dict V) (k : string) (v : V) : dict V :=
  match d with
  | [] => [(k, v)]
  | (k', v') :: d' =>
      if String.eqb k' k then (k', v) :: d' else (k', v') :: dict_set d' k v
  end.

(** The graph: [edges] of the network file, station name to outgoing edges. *)
Definition graph := dict (list edge).

(** The station table: station name to coordinates. *)
Definition stations_table := dict coords.

(** *** Sets of station names *)

Definition set_contains (x : station) (s : list station) : bool :=
  existsb (String.eqb x) s.

Definition set_add (x : station) (s : list station) : list station := x :: s.

(** *** Comparisons on numbers and tuples *)

Definition Rltb (a b : R) : bool := if Rlt_dec a b then true else false.
Definition Reqb (a b : R) : bool := if Req_dec_T a b then true else false.

(** [d < c] for a finite [d] and a cost that may be [float('inf')]. *)
Definition cost_ltb (d : R) (c : cost) : bool :=
  match c with
  | Fin c' => Rltb d c'
  | Inf => true
  end.

(** The path carried in a queue entry: [(station, line)] pairs. *)
Definition qpath := list (station * line_id).

(** Python's [<] on lists of [(str, str)] tuples. *)
Fixpoint path_ltb (p q : qpath) : bool :=
  match p, q with
  | [], [] => false
  | [], _ :: _ => true
  | _ :: _, [] => false
  | (s1, l1) :: p', (s2, l2) :: q' =>
      if String.eqb s1 s2
      then if String.eqb l1 l2 then path_ltb p' q' else String.ltb l1 l2
      else String.ltb s1 s2
  end.

(** Queue entries of [dijkstra]: [(distance, node, path)]. *)
Definition d_entry : Type := R * station * qpath.

Definition d_entry_ltb (a b : d_entry) : bool :=
  let '(d1, n1, p1) := a in
  let '(d2, n2, p2) := b in
  if Reqb d1 d2
  then if String.eqb n1 n2 then path_ltb p1 p2 else String.ltb n1 n2
  else Rltb d1 d2.

(** Queue entries of [a_star]: [(f_score, g_score, node, path)]. *)
Definition a_entry : Type := R * R * station * qpath.

Definition a_entry_ltb (a b : a_entry) : bool :=
  let '(f1, g1, n1, p1) := a in
  let '(f2, g2, n2, p2) := b in
  if Reqb f1 f2
  then if Reqb g1 g2
       then if String.eqb n1 n2 then path_ltb p1 p2 else String.ltb n1 n2
       else Rltb g1 g2
  else Rltb f1 f2.

(** *** heapq *)

Section Heapq.
Context {A : Type}.
Variable ltb : A -> A -> bool.

(** The smallest element of [x :: l] and the remaining elements. *)
Fixpoint pop_min (x : A) (l : list A) : A * list A :=
  match l with
  | [] => (x, [])
  | y :: l' =>
      let (m, r) := pop_min y l' in
      if ltb m x then (m, x :: r) else (x, m :: r)
  end.

Definition heappop (q : list A) : option (A * list A) :=
  match q with
  | [] => None
  | x :: l => Some (pop_min x l)
  end.

Definition heappush (q : list A) (x : A) : list A := x :: q.
End Heapq.

(** *** Loops *)

(** What one round of a [while] loop does: return from the function, go
    round again, or let an exception escape. *)
Inductive outcome (St Res : Type) : Type :=
| Return (r : Res)
| Continue (s : St)
| Raise.
Arguments Return {St Res} r.
Arguments Continue {St Res} s.
Arguments Raise {St Res}.

(** [None]: no value is returned (an exception escaped, or the fuel ran out). *)
Fixpoint while_loop {St Res : Type} (body : St -> outcome St Res) (fuel : nat)
  (s : St) : option Res :=
  match fuel with
  | O => None
  | S fuel' =>
      match body s with
      | Return r => Some r
      | Continue s' => while_loop body fuel' s'
      | Raise => None
      end
  end.

(** ** haversine *)

(** [math.radians] *)
Definition radians (x : R) : R := x * (PI / 180).

Definition haversine (lat1 lon1 lat2 lon2 : R) : R :=
  let lat1 := radians lat1 in
  let lon1 := radians lon1 in
  let lat2 := radians lat2 in
  let lon2 := radians lon2 in
  let dlon := lon2 - lon1 in
  let dlat := lat2 - lat1 in
  let a := sin (dlat / 2) ^ 2 + cos lat1 * cos lat2 * sin (dlon / 2) ^ 2 in
  let c := 2 * asin (sqrt a) in
  let r := 6371 in
  c * r.

(** ** heuristic *)

(** [None] is the [KeyError] of [stations_data[node]]. *)
Definition heuristic (node target : station) (stations_data : stations_table)
  : option R :=
  if negb (dict_contains stations_data node)
     || negb (dict_contains stations_data target)
  then Some 0
  else
    match dict_get stations_data node with
    | None => None
    | Some coords1 =>
        match dict_get stations_data target with
        | None => None
        | Some coords2 =>
            Some (haversine (lat coords1) (lon coords1) (lat coords2) (lon coords2))
        end
    end.

(** ** Search results *)

(** The returned path: [(station, line)] pairs closed by [(end, None)]. *)
Definition path_data := list (station * option line_id).

(** [path + [(current_node, None)]] *)
Definition close_path (path : qpath) (current_node : station) : path_data :=
  map (fun sl => (fst sl, Some (snd sl))) path ++ [(current_node, None)].

(** [(cost, path, nodes_visited_count)] *)
Definition search_result : Type := cost * path_data * nat.

(** ** dijkstra *)

Record d_state : Type := mkDState {
  d_queue : list d_entry;
  d_visited : list station;
  min_distances : dict cost;
  d_count : nat
}.

(** The [for edge in graph[current_node]] loop. *)
Fixpoint dijkstra_relax (edges : list edge) (current_dist : R)
  (current_node : station) (path : qpath)
  (queue : list d_entry) (min_distances : dict cost)
  : list d_entry * dict cost :=
  match edges with
  | [] => (queue, min_distances)
  | edge :: edges' =>
      let neighbor := to edge in
      let weight := distance edge in
      let line := line edge in
      let distance := current_dist + weight in
      if cost_ltb distance (dict_get_default min_distances neighbor Inf)
      then
        let min_distances := dict_set min_distances neighbor (Fin distance) in
        let new_path := path ++ [(current_node, line)] in
        dijkstra_relax edges' current_dist current_node path
          (heappush queue (distance, neighbor, new_path)) min_distances
      else
        dijkstra_relax edges' current_dist current_node path queue min_distances
  end.

(** One round of [while queue:]. *)
Definition dijkstra_step (g : graph) (end_node : station) (st : d_state)
  : outcome d_state search_result :=
  match heappop d_entry_ltb (d_queue st) with
  | None => Return (Inf, [], d_count st)
  | Some ((current_dist, current_node, path), queue) =>
      let nodes_visited_count := S (d_count st) in
      if String.eqb current_node end_node
      then Return (Fin current_dist, close_path path current_node, nodes_visited_count)
      else if set_contains current_node (d_visited st)
      then Continue (mkDState queue (d_visited st) (min_distances st) nodes_visited_count)
      else
        let visited := set_add current_node (d_visited st) in
        match dict_get g current_node with
        | Some edges =>
            let (queue', md') :=
              dijkstra_relax edges current_dist current_node path queue
                (min_distances st) in
            Continue (mkDState queue' visited md' nodes_visited_count)
        | None => Continue (mkDState queue visited (min_distances st) nodes_visited_count)
        end
  end.

(** [{node: float('inf') for node in graph}] *)
Definition all_inf (g : graph) : dict cost :=
  fold_left (fun (d : dict cost) (kv : string * list edge) => dict_set d (fst kv) Inf)
    g [].

Definition dijkstra_init (g : graph) (start_node : station) : d_state :=
  mkDState [(0, start_node, [])] [] (dict_set (all_inf g) start_node (Fin 0)) 0.

(** The number of edge records of the graph. *)
Definition edge_count (g : graph) : nat :=
  fold_right (fun (kv : string * list edge) n => (List.length (snd kv) + n)%nat) 0%nat g.

Definition search_fuel (g : graph) : nat := S (S (edge_count g)).

Definition dijkstra (g : graph) (start_node end_node : station)
  : option search_result :=
  while_loop (dijkstra_step g end_node) (search_fuel g) (dijkstra_init g start_node).

(** ** a_star *)

Record a_state : Type := mkAState {
  a_queue : list a_entry;
  a_visited : list station;
  g_scores : dict cost;
  a_count : nat
}.

(** The [for edge in graph[current_node]] loop; [None] when [heuristic] raises. *)
Fixpoint a_star_relax (edges : list edge) (current_g : R)
  (current_node end_node : station) (stations_data : stations_table)
  (path : qpath) (queue : list a_entry) (g_scores : dict cost)
  : option (list a_entry * dict cost) :=
  match edges with
  | [] => Some (queue, g_scores)
  | edge :: edges' =>
      let neighbor := to edge in
      let weight := distance edge in
      let line := line edge in
      let tentative_g := current_g + weight in
      if cost_ltb tentative_g (dict_get_default g_scores neighbor Inf)
      then
        let g_scores := dict_set g_scores neighbor (Fin tentative_g) in
        match heuristic neighbor end_node stations_data with
        | None => None
        | Some h_score =>
            let f_score := tentative_g + h_score in
            let new_path := path ++ [(current_node, line)] in
            a_star_relax edges' current_g current_node end_node stations_data path
              (heappush queue (f_score, tentative_g, neighbor, new_path)) g_scores
        end
      else
        a_star_relax edges' current_g current_node end_node stations_data path
          queue g_scores
  end.

Definition a_star_step (g : graph) (end_node : station)
  (stations_data : stations_table) (st : a_state)
  : outcome a_state search_result :=
  match heappop a_entry_ltb (a_queue st) with
  | None => Return (Inf, [], a_count st)
  | Some ((f_score, current_g, current_node, path), queue) =>
      let nodes_visited_count := S (a_count st) in
      if String.eqb current_node end_node
      then Return (Fin current_g, close_path path current_node, nodes_visited_count)
      else if set_contains current_node (a_visited st)
      then Continue (mkAState queue (a_visited st) (g_scores st) nodes_visited_count)
      else
        let visited := set_add current_node (a_visited st) in
        match dict_get g current_node with
        | Some edges =>
            match a_star_relax edges current_g current_node end_node stations_data
                    path queue (g_scores st) with
            | Some (queue', gs') =>
                Continue (mkAState queue' visited gs' nodes_visited_count)
            | None => Raise
            end
        | None => Continue (mkAState queue visited (g_scores st) nodes_visited_count)
        end
  end.

Definition a_star_init (g : graph) (start_node : station) : a_state :=
  mkAState [(0, 0, start_node, [])] [] (dict_set (all_inf g) start_node (Fin 0)) 0.

Definition a_star (g : graph) (start_node end_node : station)
  (stations_data : stations_table) : option search_result :=
  while_loop (a_star_step g end_node stations_data) (search_fuel g)
    (a_star_init g start_node).

(** ** format_path *)

(** [format_path] returns the string ["No path found."] or a dictionary
    with the keys ['route'] and ['lines']. *)
Inductive formatted : Type :=
| Message (text : string)
| RouteDict (route : list station) (lines : list (option line_id)).

Definition line_eqb (a b : option line_id) : bool :=
  match a, b with
  | Some x, Some y => String.eqb x y
  | None, None => true
  | _, _ => false
  end.

(** [not lines_used or lines_used[-1] != line] *)
Definition line_changes (lines_used : list (option line_id)) (line : option line_id)
  : bool :=
  match lines_used with
  | [] => true
  | l0 :: ls => negb (line_eqb (last ls l0) line)
  end.

(** The body of [for i in range(len(path_data) - 1)]. *)
Definition format_step (acc : list station * list (option line_id))
  (item : station * option line_id) : list station * list (option line_id) :=
  let (stations_path, lines_used) := acc in
  let (station, line) := item in
  let stations_path := stations_path ++ [station] in
  if line_changes lines_used line
  then (stations_path, lines_used ++ [line])
  else (stations_path, lines_used).

Definition format_path (path_data : path_data) : formatted :=
  match path_data with
  | [] => Message "No path found."
  | first :: rest =>
      let (stations_path, lines_used) :=
        fold_left format_step
          (firstn (List.length path_data - 1) path_data) ([], []) in
      RouteDict (stations_path ++ [fst (last rest first)]) lines_used
  end.

(** ** main: the report *)

Inductive py_exception : Type :=
| KeyError
| TypeError
| ZeroDivisionError.

(** [a / b] on integers. *)
Definition true_div (a b : Z) : option R :=
  if Z.eqb b 0 then None else Some (IZR a / IZR b).

(** [((d_nodes - a_nodes) / d_nodes) * 100]; [None] is [ZeroDivisionError]. *)
Definition improvement (d_nodes a_nodes : nat) : option R :=
  match true_div (Z.of_nat d_nodes - Z.of_nat a_nodes) (Z.of_nat d_nodes) with
  | None => None
  | Some q => Some (q * 100)
  end.

(** The loaded network file. *)
Record network : Type := mkNetwork {
  stations : stations_table;
  edges : graph
}.

(** What a run of [main] prints, or the exception that ends it. *)
Inductive main_output : Type :=
| Usage
| StationNotFound (name : string)
| NoRouteFound
| Comparison (total_distance : cost) (lines : list (option line_id))
    (number_of_stations : nat) (d_nodes a_nodes : nat) (improvement : R)
    (route : list station)
| Uncaught (e : py_exception).

Definition main (argv : list string) (data : network) : option main_output :=
  match argv with
  | _ :: start_station :: end_station :: _ =>
      if negb (dict_contains (stations data) start_station)
      then Some (StationNotFound start_station)
      else if negb (dict_contains (stations data) end_station)
      then Some (StationNotFound end_station)
      else
        match dijkstra (edges data) start_station end_station with
        | None => None
        | Some (d_dist, d_path, d_nodes) =>
            match a_star (edges data) start_station end_station (stations data) with
            | None => None
            | Some (a_dist, a_path, a_nodes) =>
                match d_dist with
                | Inf => Some NoRouteFound
                | Fin _ =>
                    match format_path a_path with
                    | Message _ => Some (Uncaught TypeError)
                    | RouteDict route lines =>
                        match improvement d_nodes a_nodes with
                        | None => Some (Uncaught ZeroDivisionError)
                        | Some percent =>
                            Some (Comparison a_dist lines (List.length route)
                                    d_nodes a_nodes percent route)
                        end
                    end
                end
            end
        end
  | _ => Some Usage
  end.

(** ** Paths of the graph *)

(** The outgoing edges of a station; a station that is no key has none. *)
Definition edges_of (g : graph) (u : station) : list edge :=
  dict_get_default g u [].

(** [walk g u es v]: following the edges [es] one after the other leads
    from [u] to [v]. *)
Inductive walk (g : graph) : station -> list edge -> station -> Prop :=
| walk_nil : forall u, walk g u [] u
| walk_cons : forall u e es v,
    In e (edges_of g u) -> walk g (to e) es v -> walk g u (e :: es) v.

(** The cost of a walk: the sum of its edge weights. *)
Definition walk_cost (es : list edge) : R :=
  fold_right (fun e acc => distance e + acc) 0 es.

(** All edge weights are non-negative. *)
Definition nonneg_weights (g : graph) : Prop :=
  forall u e, In e (edges_of g u) -> 0 <= distance e.

(** The estimate [a_star] uses for a station: the value of [heuristic]. *)
Definition h_value (stations_data : stations_table) (end_node n : station) : R :=
  match heuristic n end_node stations_data with
  | Some h => h
  | None => 0
  end.

(** The estimate never drops by more than the weight along an edge. *)
Definition consistent (g : graph) (h : station -> R) : Prop :=
  forall u e, In e (edges_of g u) -> h u <= distance e + h (to e).

(** The estimate never exceeds the cost of a walk to the end station. *)
Definition admissible (g : graph) (end_node : station) (h : station -> R) : Prop :=
  forall u es, walk g u es end_node -> h u <= walk_cost es.

(** [c] is the least cost of a walk from [s] to [t]. *)
Definition min_walk_cost (g : graph) (s t : station) (c : R) : Prop :=
  (exists es, walk g s es t /\ walk_cost es = c) /\
  (forall es, walk g s es t -> c <= walk_cost es).

(** What a search should return as its cost. *)
Definition optimal_cost (g : graph) (s t : station) (c : cost) : Prop :=
  match c with
  | Fin d => min_walk_cost g s t d
  | Inf => forall es, ~ walk g s es t
  end.

(** Consecutive equal entries collapsed to one. *)
Fixpoint collapse (l : list (option line_id)) : list (option line_id) :=
  match l with
  | [] => []
  | x :: l' =>
      match l' with
      | [] => [x]
      | y :: _ => if line_eqb x y then collapse l' else x :: collapse l'
      end
  end.

(** ** Notions used in the proofs *)

(** [k] rounds of a loop, none of which leaves it. *)
Fixpoint iterate {St Res : Type} (body : St -> outcome St Res) (k : nat) (s : St)
  : option St :=
  match k with
  | O => Some s
  | S k' =>
      match body s with
      | Continue s' => iterate body k' s'
      | _ => None
      end
  end.

(** The lines recorded after a line [prev]: an entry is kept when it differs
    from the entry before it. *)
Fixpoint collapse_after (prev : option line_id) (l : list (option line_id))
  : list (option line_id) :=
  match l with
  | [] => []
  | x :: l' =>
      if line_eqb prev x then collapse_after prev l' else x :: collapse_after x l'
  end.

(** [a <= b] on costs that may be [float('inf')]. *)
Definition cost_le (a b : cost) : Prop :=
  match a, b with
  | _, Inf => True
  | Fin x, Fin y => x <= y
  | Inf, Fin _ => False
  end.

(** [g_scores.get(x, float('inf'))] *)
Definition score (gs : dict cost) (x : station) : cost := dict_get_default gs x Inf.

(** The edges of stations not yet in [visited]. *)
Fixpoint unvisited_edges (g : graph) (visited : list station) : nat :=
  match g with
  | [] => 0
  | (k, es) :: g' =>
      (if set_contains k visited then 0 else List.length es)
      + unvisited_edges g' visited
  end.

(** The [a_star] entry that orders like a [dijkstra] entry. *)
Definition lift_entry (e : d_entry) : a_entry :=
  let '(d, n, p) := e in (d, d, n, p).

Definition lift_state (st : d_state) : a_state :=
  mkAState (map lift_entry (d_queue st)) (d_visited st) (min_distances st)
    (d_count st).

(** *** One round of a_star, case by case *)

(** The entry an edge yields when it is pushed. *)
Definition pushed (end_node : station) (stations_data : stations_table)
  (current_g : R) (current_node : station) (path : qpath) (e : edge) : a_entry :=
  (current_g + distance e + h_value stations_data end_node (to e),
   current_g + distance e, to e, path ++ [(current_node, line e)]).

(** What the [for] loop over the edges has done when it ends. *)
Record relaxed (end_node : station) (stations_data : stations_table)
  (es : list edge) (cur : R) (u : station) (path : qpath)
  (q : list a_entry) (gs : dict cost) (q' : list a_entry) (gs' : dict cost)
  : Prop := {
  relaxed_lower : forall x, cost_le (score gs' x) (score gs x);
  relaxed_edges : forall e, In e es -> cost_le (score gs' (to e)) (Fin (cur + distance e));
  relaxed_new : forall en, In en q' ->
                  In en q \/
                  exists e, In e es /\ en = pushed end_node stations_data cur u path e;
  relaxed_old : forall en, In en q -> In en q';
  relaxed_queued : forall x,
      score gs' x = score gs x \/
      exists g' f p, score gs' x = Fin g' /\ In (f, g', x, p) q';
  relaxed_length : (List.length q' <= List.length q + List.length es)%nat
}.

(** The cases of one round. *)
Inductive round (g : graph) (end_node : station) (stations_data : stations_table)
  (st : a_state) : outcome a_state search_result -> Prop :=
| round_empty :
    a_queue st = [] ->
    round g end_node stations_data st (Return (Inf, [], a_count st))
| round_end : forall x l f cur p rest,
    a_queue st = x :: l ->
    pop_min a_entry_ltb x l = ((f, cur, end_node, p), rest) ->
    round g end_node stations_data st
      (Return (Fin cur, close_path p end_node, S (a_count st)))
| round_skip : forall x l f cur u p rest,
    a_queue st = x :: l ->
    pop_min a_entry_ltb x l = ((f, cur, u, p), rest) ->
    u <> end_node ->
    In u (a_visited st) ->
    round g end_node stations_data st
      (Continue (mkAState rest (a_visited st) (g_scores st) (S (a_count st))))
| round_expand : forall x l f cur u p rest q' gs',
    a_queue st = x :: l ->
    pop_min a_entry_ltb x l = ((f, cur, u, p), rest) ->
    u <> end_node ->
    ~ In u (a_visited st) ->
    a_star_relax (edges_of g u) cur u end_node stations_data p rest (g_scores st)
    = Some (q', gs') ->
    relaxed end_node stations_data (edges_of g u) cur u p rest (g_scores st) q' gs' ->
    round g end_node stations_data st
      (Continue (mkAState q' (u :: a_visited st) gs' (S (a_count st)))).

(** The rounds left are bounded by the queue and the unvisited edges. *)
Definition a_measure (g : graph) (st : a_state) : nat :=
  (List.length (a_queue st) + unvisited_edges g (a_visited st))%nat.

(** *** The invariant of the a_star loop *)

(** Every queue entry carries the cost of a walk from the start, and its key
    is that cost plus the estimate. *)
Definition entries_ok (g : graph) (start_node end_node : station)
  (stations_data : stations_table) (q : list a_entry) : Prop :=
  forall f cur n p, In (f, cur, n, p) q ->
    f = cur + h_value stations_data end_node n /\
    exists es, walk g start_node es n /\ walk_cost es = cur.

(** The edges out of a visited station have been relaxed from its least cost. *)
Definition visited_ok (g : graph) (start_node end_node : station)
  (visited : list station) (gs : dict cost) : Prop :=
  forall v, In v visited ->
    v <> end_node /\
    forall es e, walk g start_node es v -> In e (edges_of g v) ->
      cost_le (score gs (to e)) (Fin (walk_cost es + distance e)).

(** The best known cost of a station not yet visited is on the queue. *)
Definition open_ok (q : list a_entry) (visited : list station) (gs : dict cost)
  : Prop :=
  forall x c, ~ In x visited -> score gs x = Fin c -> exists f p, In (f, c, x, p) q.

Record a_inv (g : graph) (start_node end_node : station)
  (stations_data : stations_table) (st : a_state) : Prop := {
  inv_entries : entries_ok g start_node end_node stations_data (a_queue st);
  inv_visited : visited_ok g start_node end_node (a_visited st) (g_scores st);
  inv_open : open_ok (a_queue st) (a_visited st) (g_scores st);
  inv_start : cost_le (score (g_scores st) start_node) (Fin 0)
}.

Definition search_inv (g : graph) (start_node end_node : station)
  (stations_data : stations_table) (st : a_state) : Prop :=
  st = a_star_init g start_node \/ a_inv g start_node end_node stations_data st.

(** ** Networks used as examples *)

(** Kilometres per degree of longitude on the equator. *)
Definition km_per_degree : R := PI / 180 * 6371.

(** Four stations on one line: A-B 1.0 km (Red), B-C 2.0 km (Red), C-D 1.5 km (Blue). *)
Definition line_graph : graph :=
  [("A"%string, [mkEdge "B" 1 "Red"]);
   ("B"%string, [mkEdge "A" 1 "Red"; mkEdge "C" 2 "Red"]);
   ("C"%string, [mkEdge "B" 2 "Red"; mkEdge "D" (3 / 2) "Blue"]);
   ("D"%string, [mkEdge "C" (3 / 2) "Blue"])].

(** Four stations on the equator, at longitudes 5 (S), 10 (A), 1 (B) and
    0 (E).  The edge from A to B is shorter than the straight line between
    the two stations; the edge from B to E is a long way round. *)
Definition tunnel_graph : graph :=
  [("S"%string, [mkEdge "A" 100 "Red"; mkEdge "B" 500 "Blue"]);
   ("A"%string, [mkEdge "B" 100 "Red"]);
   ("B"%string, [mkEdge "E" 1400 "Blue"])].

Definition tunnel_stations : stations_table :=
  [("S"%string, mkCoords 0 5);
   ("A"%string, mkCoords 0 10);
   ("B"%string, mkCoords 0 1);
   ("E"%string, mkCoords 0 0)].

(** The least cost to reach E from each station of [tunnel_graph]. *)
Definition tunnel_remaining (u : station) : R :=
  if String.eqb "S" u then 1600
  else if String.eqb "A" u then 1500
  else if String.eqb "B" u then 1400
  else 0.

(** Five stations on the equator, at longitudes 10 (S), 11 (A), 9 (B),
    8 (V) and 0 (E); every edge is at least as long as the straight line
    between its two stations. *)
Definition detour_graph : graph :=
  [("S"%string, [mkEdge "A" 150 "Red"; mkEdge "B" 200 "Blue"]);
   ("A"%string, [mkEdge "V" 430 "Red"]);
   ("B"%string, [mkEdge "V" 400 "Blue"]);
   ("V"%string, [mkEdge "E" 1200 "Red"])].

Definition detour_stations : stations_table :=
  [("S"%string, mkCoords 0 10);
   ("A"%string, mkCoords 0 11);
   ("B"%string, mkCoords 0 9);
   ("V"%string, mkCoords 0 8);
   ("E"%string, mkCoords 0 0)].

(** A table that lacks the end station: every estimate is 0. *)
Definition partial_stations : stations_table :=
  [("A"%string, mkCoords 0 3); ("B"%string, mkCoords 0 2)].


(** ** Routes *)

(** The path a queue entry carries for the walk [es] from [s]. *)
Fixpoint qpath_of (s : station) (es : list edge) : qpath :=
  match es with
  | [] => []
  | e :: es' => (s, line e) :: qpath_of (to e) es'
  end.

(** The path a search returns for the walk [es] from [s]: every station
    with the line taken from it, closed by the last station and [None]. *)
Fixpoint route_of (s : station) (es : list edge) : path_data :=
  match es with
  | [] => [(s, None)]
  | e :: es' => (s, Some (line e)) :: route_of (to e) es'
  end.

(** No two neighbours of the list are equal. *)
Fixpoint no_repeat (l : list (option line_id)) : Prop :=
  match l with
  | [] => True
  | x :: l' =>
      match l' with
      | [] => True
      | y :: _ => x <> y /\ no_repeat l'
      end
  end.

(** *** What the a_star loop keeps for every table and every weight *)

(** Every queue entry carries the path and the cost of a walk from the start. *)
Definition entries_spelled (g : graph) (start_node : station) (q : list a_entry)
  : Prop :=
  forall f cur n p, In (f, cur, n, p) q ->
    exists es, walk g start_node es n /\ p = qpath_of start_node es /\
               walk_cost es = cur.

(** Every edge out of a visited station has given its end a finite cost. *)
Definition visited_relaxed (g : graph) (end_node : station)
  (visited : list station) (gs : dict cost) : Prop :=
  forall v, In v visited ->
    v <> end_node /\
    forall e, In e (edges_of g v) -> score gs (to e) <> Inf.

Record reach_inv (g : graph) (start_node end_node : station) (st : a_state)
  : Prop := {
  reach_entries : entries_spelled g start_node (a_queue st);
  reach_visited : visited_relaxed g end_node (a_visited st) (g_scores st);
  reach_open : open_ok (a_queue st) (a_visited st) (g_scores st);
  reach_start : score (g_scores st) start_node <> Inf
}.

(** What a returned result says about the graph. *)
Definition result_sound (g : graph) (start_node end_node : station)
  (r : search_result) : Prop :=
  match r with
  | (Fin d, p, _) =>
      exists es, walk g start_node es end_node /\ walk_cost es = d /\
                 p = route_of start_node es
  | (Inf, p, _) => p = [] /\ forall es, ~ walk g start_node es end_node
  end.

(** The returned route is a walk of least cost. *)
Definition result_shortest (g : graph) (start_node end_node : station)
  (r : search_result) : Prop :=
  match r with
  | (Fin d, p, _) =>
      exists es, walk g start_node es end_node /\ walk_cost es = d /\
                 p = route_of start_node es /\
                 forall es', walk g start_node es' end_node ->
                             walk_cost es <= walk_cost es'
  | (Inf, p, _) => p = [] /\ forall es, ~ walk g start_node es end_node
  end.

(** * validate_network.py *)

(** The return value of [validate_network] is modelled; its log lines are not. *)

Definition Rleb (a b : R) : bool := if Rle_dec a b then true else false.

(** [c <= t] for a cost that may be [float('inf')] and a finite [t]. *)
Definition cost_leb (c : cost) (t : R) : bool :=
  match c with
  | Fin d => Rleb d t
  | Inf => false
  end.

(** The body of [for name, st in stations.items()]. *)
Definition nearer (lat0 lon0 : R) (best : option station * cost)
  (item : station * coords) : option station * cost :=
  let (name, st) := item in
  let d := haversine lat0 lon0 (lat st) (lon st) in
  if cost_ltb d (snd best) then (Some name, Fin d) else best.

Definition find_nearest_station (lat0 lon0 : R) (stations : stations_table)
  (threshold_km : R) : option station * cost :=
  let best := fold_left (nearer lat0 lon0) stations (None, Inf) in
  if cost_leb (snd best) threshold_km then best else (None, snd best).

(** A shape point [[lat, lon]]. *)
Definition point : Type := R * R.

Definition point_eqb (a b : point) : bool :=
  Reqb (fst a) (fst b) && Reqb (snd a) (snd b).

(** An entry of the [lines] object: [{'color': ..., 'paths': [...]}], either
    key of which may be missing. *)
Record line_data : Type := mkLineData {
  color : option string;
  paths : option (list (list point))
}.

(** [not ln] for [ln = lines.get(line)]: the line is missing or its entry is
    the empty dictionary. *)
Definition line_missing (ln : option line_data) : bool :=
  match ln with
  | None => true
  | Some d =>
      match color d, paths d with
      | None, None => true
      | _, _ => false
      end
  end.

(** The network file of the frontend. *)
Record frontend_network : Type := mkFrontendNetwork {
  f_stations : stations_table;
  f_edges : graph;
  f_lines : dict line_data
}.

(** The truth value of a station name that may be [None]. *)
Definition name_truthy (name : option station) : bool :=
  match name with
  | Some s => negb (String.eqb s "")
  | None => false
  end.

(** The search for a reverse edge: [found] after the loop over [edges[v]]. *)
Definition reverse_found (edges : graph) (u : station) (e : edge) : bool :=
  match dict_get edges (to e) with
  | Some zs =>
      existsb (fun z => String.eqb (to z) u && String.eqb (line z) (line e)) zs
  | None => false
  end.

(** The bidirectional check: [ok] after the two nested loops. *)
Definition bidirectional_check (edges : graph) (ok : bool) : bool :=
  fold_left
    (fun ok (item : station * list edge) =>
       fold_left
         (fun ok e => if reverse_found edges (fst item) e then ok else false)
         (snd item) ok)
    edges ok.

(** Whether one path of a line sets [found_closed]. *)
Definition path_closes (stations : stations_table) (edges : graph)
  (threshold_km : R) (line_name : string) (path : list point) : bool :=
  match path with
  | [] => false
  | first :: rest =>
      if (List.length path <? 2)%nat then false
      else
        let last := last rest first in
        if point_eqb first last then true
        else
          let (first_sta, fd) :=
            find_nearest_station (fst first) (snd first) stations threshold_km in
          let (last_sta, ld) :=
            find_nearest_station (fst last) (snd last) stations threshold_km in
          if name_truthy first_sta && name_truthy last_sta
          then
            match first_sta, last_sta with
            | Some fs, Some ls =>
                match dict_get edges ls with
                | Some es =>
                    existsb (fun e => String.eqb (to e) fs
                                      && String.eqb (line e) line_name) es
                | None => false
                end
            | _, _ => false
            end
          else false
  end.

(** Whether a circular line passes: it is missing (a warning only), or one
    of its paths closes. *)
Definition circular_line_ok (data : frontend_network) (threshold_km : R)
  (line_name : string) : bool :=
  let ln := dict_get (f_lines data) line_name in
  if line_missing ln then true
  else
    match ln with
    | Some d =>
        existsb (path_closes (f_stations data) (f_edges data) threshold_km line_name)
          (match paths d with Some ps => ps | None => [] end)
    | None => true
    end.

(** The circular check: [ok] after the loop over the circular lines. *)
Definition circular_check (data : frontend_network) (circular_lines : list string)
  (threshold_km : R) (ok : bool) : bool :=
  fold_left
    (fun ok line_name =>
       if circular_line_ok data threshold_km line_name then ok else false)
    circular_lines ok.

(** [validate_network] on the loaded configuration and network. *)
Definition validate_network (circular_lines : list string) (threshold_km : R)
  (data : frontend_network) : Z :=
  let ok := true in
  let ok := bidirectional_check (f_edges data) ok in
  let ok := circular_check data circular_lines threshold_km ok in
  if ok then 0%Z else 2%Z.

(** Every listed edge has an edge back on the same line. *)
Definition edges_reversible (edges : graph) : Prop :=
  forall u es e, In (u, es) edges -> In e es ->
    exists z, In z (edges_of edges (to e)) /\ to z = u /\ line z = line e.

(** * generate_network_json.py *)

(** A key of [processed_edges]: [(frm, to, line)]. *)
Definition edge_key : Type := station * station * line_id.

Definition key_eqb (a b : edge_key) : bool :=
  let '(f1, t1, l1) := a in
  let '(f2, t2, l2) := b in
  String.eqb f1 f2 && String.eqb t1 t2 && String.eqb l1 l2.

Definition key_in (k : edge_key) (processed : list edge_key) : bool :=
  existsb (key_eqb k) processed.

(** The two objects [add_edge] updates. *)
Record builder : Type := mkBuilder {
  b_edges : graph;
  processed_edges : list edge_key
}.

(** [edges.setdefault(frm, []).append(e)] *)
Definition setdefault_append (edges : graph) (frm : station) (e : edge) : graph :=
  match dict_get edges frm with
  | Some es => dict_set edges frm (es ++ [e])
  | None => dict_set edges frm [e]
  end.

Section AddEdge.
(** [round(x, 2)], and the configuration flag. *)
Variable round2 : R -> R.
Variable ADD_REVERSE : bool.

Definition add_edge (st : builder) (frm to_ : station) (distance : R)
  (line : line_id) : builder :=
  let key := (frm, to_, line) in
  if key_in key (processed_edges st) then st
  else
    let edges := setdefault_append (b_edges st) frm
                   (mkEdge to_ (round2 distance) line) in
    let processed := key :: processed_edges st in
    if ADD_REVERSE
    then
      let rev_key := (to_, frm, line) in
      if negb (key_in rev_key processed)
      then mkBuilder
             (setdefault_append edges to_ (mkEdge frm (round2 distance) line))
             (rev_key :: processed)
      else mkBuilder edges processed
    else mkBuilder edges processed.

(** A call of [add_edge]: [(frm, to, distance, line)]. *)
Definition add_edge_call : Type := station * station * R * line_id.

(** A run of calls of [add_edge] on the empty objects. *)
Definition add_edges (calls : list add_edge_call) : builder :=
  fold_left
    (fun st (c : add_edge_call) =>
       let '(frm, to_, distance, line) := c in add_edge st frm to_ distance line)
    calls (mkBuilder [] []).
End AddEdge.

(** [processed_edges] lists exactly the edges of the graph, no station has
    two edges to the same station on the same line, and no key is listed twice. *)
Record builder_ok (st : builder) : Prop := {
  ok_processed : forall u v l,
      key_in (u, v, l) (processed_edges st) = true <->
      exists e, In e (edges_of (b_edges st) u) /\ to e = v /\ line e = l;
  ok_unique : forall u,
      NoDup (map (fun e => (to e, line e)) (edges_of (b_edges st) u));
  ok_keys : NoDup (map fst (b_edges st))
}.

(** Every edge has an edge back on the same line with the same distance. *)
Definition edges_mirrored (edges : graph) : Prop :=
  forall u e, In e (edges_of edges u) ->
    exists z, In z (edges_of edges (to e)) /\
              to z = u /\ line z = line e /\ distance z = distance e.

(** * generate_frontend_data.py *)

(** The body of [for idx, pt in enumerate(shape_points)]: the next index,
    [best_idx] and [best_dist]. *)
Definition nearer_index (lat0 lon0 : R) (acc : nat * option nat * cost) (pt : point)
  : nat * option nat * cost :=
  let '(idx, best_idx, best_dist) := acc in
  let d := haversine lat0 lon0 (fst pt) (snd pt) in
  if cost_ltb d best_dist then (S idx, Some idx, Fin d)
  else (S idx, best_idx, best_dist).

Definition nearest_index (shape_points : list point) (lat0 lon0 : R)
  : option nat * cost :=
  let '(_, best_idx, best_dist) :=
    fold_left (nearer_index lat0 lon0) shape_points (0%nat, None, Inf) in
  (best_idx, best_dist).

(** [l[a:b]] for indices that are not negative. *)
Definition slice {A : Type} (l : list A) (a b : nat) : list A :=
  firstn (b - a) (skipn a l).

(** The shape points between two indices, in the direction of travel. *)
Definition shape_segment (shape_pts : list point) (idx_from idx_to : nat)
  : list point :=
  if (idx_from <=? idx_to)%nat
  then slice shape_pts idx_from (idx_to + 1)
  else rev (slice shape_pts idx_to (idx_from + 1)).

Definition is_shape_circular (coords : list point) : bool :=
  match coords with
  | [] => false
  | first :: rest =>
      if (List.length coords <? 2)%nat then false
      else
        let last := last rest first in
        Rltb (haversine (fst first) (snd first) (fst last) (snd last)) (3 / 10)
  end.

(** The path stored for a shape: a shape that looks circular is closed. *)
Definition stored_path (s : list point) : list point :=
  if is_shape_circular s
  then
    match s with
    | [] => s
    | first :: rest =>
        if negb (point_eqb first (last rest first)) then s ++ [first] else s
    end
  else s.

(** ** get_line_name *)

(** [s.split('_')[0]]: the text before the first underscore. *)
Fixpoint before_underscore (s : string) : string :=
  match s with
  | EmptyString => EmptyString
  | String c s' =>
      if Ascii.eqb c "_"%char then EmptyString
      else String c (before_underscore s')
  end.

(** [pat in s] on strings. *)
Fixpoint contains (pat s : string) : bool :=
  String.prefix pat s
  || match s with
     | EmptyString => false
     | String _ s' => contains pat s'
     end.

Section LineName.
(** [str.title] *)
Variable title : string -> string.

Definition get_line_name (route_long_name : string) : string :=
  if String.eqb route_long_name ""
  then "Unknown"%string
  else
    let color_part := before_underscore route_long_name in
    if contains "ORANGE" color_part || contains "AIRPORT" color_part
    then "Airport Express"%string
    else if contains "RAPID" color_part
    then "Rapid Metro"%string
    else title color_part.
End LineName.

(** * Properties *)

(** ** Comparisons, dictionaries, sets *)

Lemma Rltb_true (a b : R) : a < b -> Rltb a b = true.
Proof. unfold Rltb. destruct (Rlt_dec a b); intros; [reflexivity | contradiction]. Qed.

Lemma Rltb_false (a b : R) : b <= a -> Rltb a b = false.
Proof. unfold Rltb. destruct (Rlt_dec a b); intros; [lra | reflexivity]. Qed.

Lemma Rltb_true_iff (a b : R) : Rltb a b = true <-> a < b.
Proof.
  unfold Rltb. destruct (Rlt_dec a b); split; intros; auto; discriminate.
Qed.

Lemma Rltb_false_iff (a b : R) : Rltb a b = false <-> b <= a.
Proof.
  unfold Rltb. destruct (Rlt_dec a b); split; intros; try discriminate; auto; lra.
Qed.

Lemma Reqb_true (a b : R) : a = b -> Reqb a b = true.
Proof. unfold Reqb. destruct (Req_dec_T a b); intros; [reflexivity | contradiction]. Qed.

Lemma Reqb_false (a b : R) : a <> b -> Reqb a b = false.
Proof. unfold Reqb. destruct (Req_dec_T a b); intros; [contradiction | reflexivity]. Qed.

Lemma Reqb_true_iff (a b : R) : Reqb a b = true <-> a = b.
Proof.
  unfold Reqb. destruct (Req_dec_T a b); split; intros; auto; discriminate.
Qed.

Lemma dict_get_set_same {V : Type} (d : dict V) (k : string) (v : V) :
  dict_get (dict_set d k v) k = Some v.
Proof.
  induction d as [| [k' v'] d IH]; simpl.
  - rewrite String.eqb_refl. reflexivity.
  - destruct (String.eqb k' k) eqn:E; simpl; rewrite E; auto.
Qed.

Lemma dict_get_set_other {V : Type} (d : dict V) (k k2 : string) (v : V) :
  k <> k2 -> dict_get (dict_set d k v) k2 = dict_get d k2.
Proof.
  intros Hne. induction d as [| [k' v'] d IH]; simpl.
  - destruct (String.eqb k k2) eqn:E; [apply String.eqb_eq in E; contradiction | reflexivity].
  - destruct (String.eqb k' k) eqn:E; simpl.
    + apply String.eqb_eq in E. subst k'.
      destruct (String.eqb k k2) eqn:E2; [apply String.eqb_eq in E2; contradiction | reflexivity].
    + rewrite IH. reflexivity.
Qed.

Lemma dict_get_default_set_same {V : Type} (d : dict V) (k : string) (v dflt : V) :
  dict_get_default (dict_set d k v) k dflt = v.
Proof. unfold dict_get_default. rewrite dict_get_set_same. reflexivity. Qed.

Lemma dict_get_default_set_other {V : Type} (d : dict V) (k k2 : string) (v dflt : V) :
  k <> k2 -> dict_get_default (dict_set d k v) k2 dflt = dict_get_default d k2 dflt.
Proof. intros. unfold dict_get_default. rewrite dict_get_set_other; auto. Qed.

Lemma dict_contains_get {V : Type} (d : dict V) (k : string) :
  dict_contains d k = true <-> exists v, dict_get d k = Some v.
Proof.
  unfold dict_contains. induction d as [| [k' v'] d IH]; simpl.
  - split; [discriminate | intros [v Hv]; discriminate].
  - destruct (String.eqb k' k); simpl.
    + split; eauto.
    + exact IH.
Qed.

Lemma dict_get_In {V : Type} (d : dict V) (k : string) (v : V) :
  dict_get d k = Some v -> In (k, v) d.
Proof.
  induction d as [| [k' v'] d IH]; simpl; [discriminate |].
  destruct (String.eqb k' k) eqn:E.
  - apply String.eqb_eq in E. intros H; inversion H; subst. now left.
  - intros H. right. auto.
Qed.

Lemma set_contains_In (x : station) (s : list station) :
  set_contains x s = true <-> In x s.
Proof.
  unfold set_contains. rewrite existsb_exists. split.
  - intros [y [Hin Heq]]. apply String.eqb_eq in Heq. now subst.
  - intros Hin. exists x. split; [assumption | apply String.eqb_refl].
Qed.

Lemma set_contains_not_In (x : station) (s : list station) :
  set_contains x s = false <-> ~ In x s.
Proof.
  rewrite <- set_contains_In. destruct (set_contains x s); split; congruence.
Qed.

(** ** heuristic *)

Lemma heuristic_defined (node target : station) (stations_data : stations_table) :
  heuristic node target stations_data <> None.
Proof.
  unfold heuristic.
  destruct (dict_contains stations_data node) eqn:E1; simpl; [| discriminate].
  destruct (dict_contains stations_data target) eqn:E2; simpl; [| discriminate].
  apply dict_contains_get in E1, E2. destruct E1 as [c1 ->], E2 as [c2 ->].
  discriminate.
Qed.

(** C6: [heuristic] returns 0 when either station is missing from the table,
    the haversine distance of the two coordinates otherwise, and raises nothing. *)
Theorem heuristic_policy (node target : station) (stations_data : stations_table) :
  heuristic node target stations_data <> None /\
  (dict_contains stations_data node = false \/
   dict_contains stations_data target = false ->
   heuristic node target stations_data = Some 0) /\
  (forall c1 c2,
     dict_get stations_data node = Some c1 ->
     dict_get stations_data target = Some c2 ->
     heuristic node target stations_data
     = Some (haversine (lat c1) (lon c1) (lat c2) (lon c2))).
Proof.
  split; [apply heuristic_defined |]. unfold heuristic. split.
  - intros [-> | ->]; simpl; [reflexivity |].
    rewrite orb_true_r. reflexivity.
  - intros c1 c2 H1 H2.
    assert (C1 : dict_contains stations_data node = true)
      by (apply dict_contains_get; eauto).
    assert (C2 : dict_contains stations_data target = true)
      by (apply dict_contains_get; eauto).
    rewrite C1, C2, H1, H2. reflexivity.
Qed.

Lemma heuristic_policy_witness :
  dict_contains detour_stations "X"%string = false /\
  heuristic "X"%string "E"%string detour_stations = Some 0 /\
  dict_get detour_stations "A"%string = Some (mkCoords 0 11) /\
  dict_get detour_stations "E"%string = Some (mkCoords 0 0) /\
  heuristic "A"%string "E"%string detour_stations = Some (haversine 0 11 0 0).
Proof.
  split; [reflexivity |].
  split; [exact (proj1 (proj2 (heuristic_policy "X"%string "E"%string
                                 detour_stations)) (or_introl eq_refl)) |].
  split; [reflexivity |]. split; [reflexivity |].
  exact (proj2 (proj2 (heuristic_policy "A"%string "E"%string detour_stations))
           (mkCoords 0 11) (mkCoords 0 0) eq_refl eq_refl).
Defined.

Lemma heuristic_h_value (stations_data : stations_table) (end_node n : station) :
  heuristic n end_node stations_data = Some (h_value stations_data end_node n).
Proof.
  unfold h_value.
  destruct (heuristic n end_node stations_data) eqn:E; [reflexivity |].
  exfalso. now apply (heuristic_defined n end_node stations_data).
Qed.

(** ** format_path *)

Lemma line_eqb_eq (a b : option line_id) : line_eqb a b = true <-> a = b.
Proof.
  destruct a, b; simpl; split; intros H; try discriminate; try reflexivity.
  - apply String.eqb_eq in H. now subst.
  - inversion H. apply String.eqb_refl.
Qed.

Lemma collapse_cons (x : option line_id) (l : list (option line_id)) :
  collapse (x :: l) = x :: collapse_after x l.
Proof.
  revert x. induction l as [| y l IH]; intros x; [reflexivity |].
  change (collapse (x :: y :: l))
    with (if line_eqb x y then collapse (y :: l) else x :: collapse (y :: l)).
  simpl collapse_after. destruct (line_eqb x y) eqn:E.
  - apply line_eqb_eq in E. subst y. apply IH.
  - rewrite IH. reflexivity.
Qed.

Lemma format_fold_nonempty (items : path_data) (sp : list station)
  (lu : list (option line_id)) (prev : option line_id) :
  fold_left format_step items (sp, lu ++ [prev])
  = (sp ++ map fst items, lu ++ [prev] ++ collapse_after prev (map snd items)).
Proof.
  revert sp lu prev. induction items as [| [s l] items IH]; intros sp lu prev.
  - simpl. rewrite !app_nil_r. reflexivity.
  - change (fold_left format_step ((s, l) :: items) (sp, lu ++ [prev]))
      with (fold_left format_step items
              (if line_changes (lu ++ [prev]) l
               then (sp ++ [s], (lu ++ [prev]) ++ [l])
               else (sp ++ [s], lu ++ [prev]))).
    assert (Hlast : line_changes (lu ++ [prev]) l = negb (line_eqb prev l)).
    { unfold line_changes. destruct (lu ++ [prev]) as [| l0 ls] eqn:E.
      - destruct lu; discriminate.
      - assert (H : last ls l0 = last (l0 :: ls) l0) by (destruct ls; reflexivity).
        rewrite H, <- E, last_last. reflexivity. }
    rewrite Hlast. simpl map. simpl collapse_after.
    destruct (line_eqb prev l) eqn:E; simpl negb; cbv iota.
    + rewrite IH. rewrite <- app_assoc. reflexivity.
    + rewrite <- app_assoc. rewrite (app_assoc lu [prev] [l]).
      rewrite IH. rewrite <- !app_assoc. reflexivity.
Qed.

Lemma format_fold (items : path_data) :
  fold_left format_step items ([], [])
  = (map fst items, collapse (map snd items)).
Proof.
  destruct items as [| [s l] items]; [reflexivity |].
  change (fold_left format_step ((s, l) :: items) ([], []))
    with (fold_left format_step items ([s], [] ++ [l])).
  rewrite (format_fold_nonempty items [s] [] l). simpl map.
  rewrite collapse_cons. reflexivity.
Qed.

Lemma firstn_pred_removelast {A : Type} (l : list A) :
  firstn (List.length l - 1) l = removelast l.
Proof. rewrite Nat.sub_1_r. symmetry. apply removelast_firstn_len. Qed.

(** C7: [format_path] lists the stations in order and records a line only
    when it differs from the line recorded before it; the empty path gives the
    message, which no one-element path gives. *)
Theorem format_path_collapses :
  (forall A B C D : station,
     format_path [(A, Some "Red"%string); (B, Some "Red"%string);
                  (C, Some "Blue"%string); (D, None)]
     = RouteDict [A; B; C; D] [Some "Red"%string; Some "Blue"%string]) /\
  (forall first rest,
     format_path (first :: rest)
     = RouteDict (map fst (first :: rest))
         (collapse (map snd (removelast (first :: rest))))) /\
  format_path [] = Message "No path found." /\
  (forall x, format_path [x] = RouteDict [fst x] []) /\
  (forall x, format_path [] <> format_path [x]).
Proof.
  assert (General : forall first rest,
     format_path (first :: rest)
     = RouteDict (map fst (first :: rest))
         (collapse (map snd (removelast (first :: rest))))).
  { intros first rest. unfold format_path.
    rewrite firstn_pred_removelast, format_fold. f_equal.
    change (last rest first) with (last rest first).
    assert (H : first :: rest <> []) by discriminate.
    rewrite (app_removelast_last first H) at 2.
    rewrite map_app. simpl. f_equal. f_equal.
    destruct rest; reflexivity. }
  split; [| split; [exact General | split; [reflexivity | split]]].
  - intros A B C D. rewrite General. reflexivity.
  - intros x. rewrite General. reflexivity.
  - intros x. rewrite General. simpl. discriminate.
Qed.

(** ** Loops and the heap *)

Section While.
Context {St Res : Type}.
Variable body : St -> outcome St Res.

Lemma while_loop_invariant (I : St -> Prop) (P : Res -> Prop) :
  (forall s s', I s -> body s = Continue s' -> I s') ->
  (forall s r, I s -> body s = Return r -> P r) ->
  forall fuel s r, I s -> while_loop body fuel s = Some r -> P r.
Proof.
  intros Hstep Hret. induction fuel as [| fuel IH]; intros s r Hs; simpl.
  - discriminate.
  - destruct (body s) as [r0 | s0 |] eqn:E.
    + intros H. inversion H. subst. eapply Hret; eauto.
    + intros H. apply (IH s0 r); [eapply Hstep; eassumption | assumption].
    + discriminate.
Qed.

Lemma while_loop_terminates (m : St -> nat) :
  (forall s, body s <> Raise) ->
  (forall s s', body s = Continue s' -> (m s' < m s)%nat) ->
  forall fuel s, (m s < fuel)%nat -> exists r, while_loop body fuel s = Some r.
Proof.
  intros Hno Hdec. induction fuel as [| fuel IH]; intros s Hm.
  - lia.
  - simpl. destruct (body s) eqn:E.
    + eauto.
    + apply IH. apply Hdec in E. lia.
    + exfalso. eapply Hno; eauto.
Qed.

Lemma while_loop_iterate (k : nat) :
  forall s s' fuel,
    iterate body k s = Some s' ->
    while_loop body (k + fuel) s = while_loop body fuel s'.
Proof.
  induction k as [| k IH]; intros s s' fuel; simpl.
  - intros H. inversion H. reflexivity.
  - destruct (body s) eqn:E; try discriminate. apply IH.
Qed.

Lemma iterate_measure (m : St -> nat) :
  (forall s s', body s = Continue s' -> (m s' < m s)%nat) ->
  forall k s s', iterate body k s = Some s' -> (m s' + k <= m s)%nat.
Proof.
  intros Hdec. induction k as [| k IH]; intros s s'; simpl.
  - intros H. inversion H. lia.
  - destruct (body s) eqn:E; try discriminate.
    intros H. apply IH in H. apply Hdec in E. lia.
Qed.

Lemma iterate_invariant (I : St -> Prop) :
  (forall s s', I s -> body s = Continue s' -> I s') ->
  forall k s s', I s -> iterate body k s = Some s' -> I s'.
Proof.
  intros Hstep. induction k as [| k IH]; intros s s' Hs; simpl.
  - intros H. inversion H. now subst.
  - destruct (body s) as [r0 | s0 |] eqn:E; try discriminate.
    intros H. apply (IH s0 s'); [eapply Hstep; eassumption | assumption].
Qed.
End While.

Section HeapqFacts.
Context {A : Type}.
Variable ltb : A -> A -> bool.

Lemma pop_min_length (l : list A) :
  forall x m r, pop_min ltb x l = (m, r) -> List.length r = List.length l.
Proof.
  induction l as [| y l IH]; intros x m r; simpl.
  - intros H. inversion H. reflexivity.
  - destruct (pop_min ltb y l) as [m0 r0] eqn:E.
    specialize (IH _ _ _ E).
    destruct (ltb m0 x); intros H; inversion H; subst; simpl; lia.
Qed.

Lemma pop_min_In (l : list A) :
  forall x m r z, pop_min ltb x l = (m, r) ->
    (In z (x :: l) <-> z = m \/ In z r).
Proof.
  induction l as [| y l IH]; intros x m r z; simpl.
  - intros H. inversion H. subst. simpl. intuition.
  - destruct (pop_min ltb y l) as [m0 r0] eqn:E.
    specialize (IH _ _ _ z E). simpl in IH.
    destruct (ltb m0 x); intros H; inversion H; subst; simpl; intuition.
Qed.

(** The popped element has the least key, for every key the order respects. *)
Lemma pop_min_least (key : A -> R) :
  (forall a b, ltb a b = true -> key a <= key b) ->
  (forall a b, ltb a b = false -> key b <= key a) ->
  forall l x m r z, pop_min ltb x l = (m, r) -> In z (x :: l) -> key m <= key z.
Proof.
  intros Hlt Hge. induction l as [| y l IH]; intros x m r z; simpl.
  - intros H. inversion H. subst. intros [-> | []]. lra.
  - destruct (pop_min ltb y l) as [m0 r0] eqn:E.
    pose proof (IH _ _ _ y E (or_introl eq_refl)) as Hy.
    assert (Hall : forall z', In z' (y :: l) -> key m0 <= key z')
      by (intros z' Hz'; eapply IH; eauto).
    destruct (ltb m0 x) eqn:Ex; intros H; inversion H; subst.
    + apply Hlt in Ex. intros [-> | Hz]; [assumption | now apply Hall].
    + apply Hge in Ex. intros [-> | Hz]; [lra |].
      specialize (Hall z Hz). lra.
Qed.
End HeapqFacts.

Lemma a_entry_ltb_true (a b : a_entry) :
  a_entry_ltb a b = true -> fst (fst (fst a)) <= fst (fst (fst b)).
Proof.
  destruct a as [[[f1 g1] n1] p1], b as [[[f2 g2] n2] p2]. simpl.
  destruct (Reqb f1 f2) eqn:E.
  - apply Reqb_true_iff in E. intros _. lra.
  - intros H. apply Rltb_true_iff in H. lra.
Qed.

Lemma a_entry_ltb_false (a b : a_entry) :
  a_entry_ltb a b = false -> fst (fst (fst b)) <= fst (fst (fst a)).
Proof.
  destruct a as [[[f1 g1] n1] p1], b as [[[f2 g2] n2] p2]. simpl.
  destruct (Reqb f1 f2) eqn:E.
  - apply Reqb_true_iff in E. intros _. lra.
  - intros H. apply Rltb_false_iff in H. lra.
Qed.

(** Two tuples neither of which is smaller than the other are the same tuple:
    which of them [heappop] returns makes no difference. *)
Lemma string_ltb_total (a b : string) :
  String.ltb a b = false -> String.ltb b a = false -> a = b.
Proof.
  unfold String.ltb. rewrite (String.compare_antisym a b).
  destruct (String.compare b a) eqn:E; simpl; try discriminate.
  intros _ _. symmetry. now apply String.compare_eq_iff.
Qed.

Lemma path_ltb_total (p : qpath) :
  forall q, path_ltb p q = false -> path_ltb q p = false -> p = q.
Proof.
  induction p as [| [s1 l1] p IH]; intros [| [s2 l2] q]; simpl;
    try discriminate; [reflexivity |].
  rewrite (String.eqb_sym s2 s1), (String.eqb_sym l2 l1).
  destruct (String.eqb s1 s2) eqn:Es.
  - apply String.eqb_eq in Es. subst s2.
    destruct (String.eqb l1 l2) eqn:El.
    + apply String.eqb_eq in El. subst l2. intros H1 H2. f_equal. now apply IH.
    + intros H1 H2. apply String.eqb_neq in El. exfalso. apply El.
      now apply string_ltb_total.
  - intros H1 H2. apply String.eqb_neq in Es. exfalso. apply Es.
    now apply string_ltb_total.
Qed.

Lemma Reqb_sym (a b : R) : Reqb a b = Reqb b a.
Proof.
  unfold Reqb. destruct (Req_dec_T a b), (Req_dec_T b a); congruence.
Qed.

Lemma a_entry_ltb_total (a b : a_entry) :
  a_entry_ltb a b = false -> a_entry_ltb b a = false -> a = b.
Proof.
  destruct a as [[[f1 g1] n1] p1], b as [[[f2 g2] n2] p2]. simpl.
  rewrite (Reqb_sym f2 f1), (Reqb_sym g2 g1), (String.eqb_sym n2 n1).
  destruct (Reqb f1 f2) eqn:Ef.
  - apply Reqb_true_iff in Ef. subst f2.
    destruct (Reqb g1 g2) eqn:Eg.
    + apply Reqb_true_iff in Eg. subst g2.
      destruct (String.eqb n1 n2) eqn:En.
      * apply String.eqb_eq in En. subst n2. intros H1 H2.
        f_equal. now apply path_ltb_total.
      * intros H1 H2. apply String.eqb_neq in En. exfalso. apply En.
        now apply string_ltb_total.
    + intros H1 H2. apply Rltb_false_iff in H1, H2.
      assert (g1 = g2) by lra. subst g2.
      rewrite Reqb_true in Eg by reflexivity. discriminate.
  - intros H1 H2. apply Rltb_false_iff in H1, H2.
    assert (f1 = f2) by lra. subst f2.
    rewrite Reqb_true in Ef by reflexivity. discriminate.
Qed.

(** ** dijkstra as a_star without estimates *)

Lemma lift_entry_ltb (a b : d_entry) :
  a_entry_ltb (lift_entry a) (lift_entry b) = d_entry_ltb a b.
Proof.
  destruct a as [[d1 n1] p1], b as [[d2 n2] p2]. simpl.
  destruct (Reqb d1 d2); reflexivity.
Qed.

Lemma pop_min_lift (l : list d_entry) (x : d_entry) :
  pop_min a_entry_ltb (lift_entry x) (map lift_entry l)
  = (lift_entry (fst (pop_min d_entry_ltb x l)),
     map lift_entry (snd (pop_min d_entry_ltb x l))).
Proof.
  revert x. induction l as [| y l IH]; intros x; [reflexivity |].
  simpl. rewrite IH. destruct (pop_min d_entry_ltb y l) as [m r]. simpl.
  rewrite lift_entry_ltb. destruct (d_entry_ltb m x); reflexivity.
Qed.

Section Simulation.
Variable g : graph.
Variable end_node : station.
Variable stations_data : stations_table.

(** No estimate is ever anything but 0 on the stations edges lead to. *)
Hypothesis zero_estimates :
  forall u e, In e (edges_of g u) -> heuristic (to e) end_node stations_data = Some 0.

Lemma relax_lift (es : list edge) :
  forall current current_node path q md,
    (forall e, In e es -> heuristic (to e) end_node stations_data = Some 0) ->
    a_star_relax es current current_node end_node stations_data path
      (map lift_entry q) md
    = Some (map lift_entry (fst (dijkstra_relax es current current_node path q md)),
            snd (dijkstra_relax es current current_node path q md)).
Proof.
  induction es as [| e es IH]; intros current current_node path q md Hz;
    [reflexivity |].
  simpl.
  destruct (cost_ltb (current + distance e) (dict_get_default md (to e) Inf)).
  - rewrite (Hz e (or_introl eq_refl)). rewrite Rplus_0_r.
    change (heappush (map lift_entry q)
              (current + distance e, current + distance e, to e,
               path ++ [(current_node, line e)]))
      with (map lift_entry
              (heappush q (current + distance e, to e,
                           path ++ [(current_node, line e)]))).
    apply IH. intros; apply Hz; now right.
  - apply IH. intros; apply Hz; now right.
Qed.

Lemma step_lift (st : d_state) :
  a_star_step g end_node stations_data (lift_state st)
  = match dijkstra_step g end_node st with
    | Return r => Return r
    | Continue s => Continue (lift_state s)
    | Raise => Raise
    end.
Proof.
  unfold a_star_step, dijkstra_step, lift_state. simpl.
  destruct (d_queue st) as [| x l]; [reflexivity |].
  simpl heappop. rewrite pop_min_lift.
  destruct (pop_min d_entry_ltb x l) as [[[d n] p] r]. simpl.
  destruct (String.eqb n end_node); [reflexivity |].
  destruct (set_contains n (d_visited st)); [reflexivity |].
  destruct (dict_get g n) as [es |] eqn:E; [| reflexivity].
  rewrite relax_lift.
  - destruct (dijkstra_relax es d n p r (min_distances st)); reflexivity.
  - intros e He. apply (zero_estimates n). unfold edges_of, dict_get_default.
    now rewrite E.
Qed.

Lemma while_lift (fuel : nat) :
  forall st,
    while_loop (a_star_step g end_node stations_data) fuel (lift_state st)
    = while_loop (dijkstra_step g end_node) fuel st.
Proof.
  induction fuel as [| fuel IH]; intros st; [reflexivity |].
  simpl. rewrite step_lift.
  destruct (dijkstra_step g end_node st); auto.
Qed.

Lemma iterate_lift (k : nat) :
  forall st,
    iterate (a_star_step g end_node stations_data) k (lift_state st)
    = option_map lift_state (iterate (dijkstra_step g end_node) k st).
Proof.
  induction k as [| k IH]; intros st; [reflexivity |].
  simpl. rewrite step_lift.
  destruct (dijkstra_step g end_node st); auto.
Qed.

Lemma a_star_is_dijkstra (start_node : station) :
  a_star g start_node end_node stations_data = dijkstra g start_node end_node.
Proof.
  unfold a_star, dijkstra.
  change (a_star_init g start_node) with (lift_state (dijkstra_init g start_node)).
  apply while_lift.
Qed.
End Simulation.

Lemma heuristic_empty (n end_node : station) : heuristic n end_node [] = Some 0.
Proof. reflexivity. Qed.

Lemma dijkstra_as_a_star (g : graph) (start_node end_node : station) :
  dijkstra g start_node end_node = a_star g start_node end_node [].
Proof.
  symmetry. apply a_star_is_dijkstra. intros. apply heuristic_empty.
Qed.

(** ** One round of a_star *)

Lemma cost_le_refl (a : cost) : cost_le a a.
Proof. destruct a; simpl; [lra | exact I]. Qed.

Lemma cost_le_trans (a b c : cost) : cost_le a b -> cost_le b c -> cost_le a c.
Proof. destruct a, b, c; simpl; intros; try lra; try contradiction; auto. Qed.

Lemma cost_ltb_true_le (d : R) (c : cost) : cost_ltb d c = true -> cost_le (Fin d) c.
Proof.
  destruct c; simpl; [| trivial]. intros H. apply Rltb_true_iff in H. lra.
Qed.

Lemma cost_ltb_false_le (d : R) (c : cost) : cost_ltb d c = false -> cost_le c (Fin d).
Proof.
  destruct c; simpl; [| discriminate]. intros H. apply Rltb_false_iff in H. lra.
Qed.

Lemma score_set_same (gs : dict cost) (x : station) (c : cost) :
  score (dict_set gs x c) x = c.
Proof. apply dict_get_default_set_same. Qed.

Lemma score_set_other (gs : dict cost) (x y : station) (c : cost) :
  x <> y -> score (dict_set gs x c) y = score gs y.
Proof. apply dict_get_default_set_other. Qed.

Lemma unvisited_edges_nil (g : graph) : unvisited_edges g [] = edge_count g.
Proof.
  induction g as [| [k es] g IH]; simpl; [reflexivity |].
  unfold edge_count in *. simpl. rewrite IH. reflexivity.
Qed.

Lemma unvisited_edges_add (g : graph) (u : station) (visited : list station) :
  (unvisited_edges g (u :: visited) <= unvisited_edges g visited)%nat.
Proof.
  induction g as [| [k es] g IH]; simpl; [lia |].
  destruct (String.eqb k u); simpl; destruct (set_contains k visited); lia.
Qed.

Lemma unvisited_edges_expand (g : graph) (u : station) (visited : list station) :
  ~ In u visited ->
  (unvisited_edges g (u :: visited) + List.length (edges_of g u)
   <= unvisited_edges g visited)%nat.
Proof.
  intros Hu. unfold edges_of, dict_get_default.
  induction g as [| [k es] g IH]; simpl; [lia |].
  destruct (String.eqb k u) eqn:E; simpl.
  - apply String.eqb_eq in E. subst k.
    apply set_contains_not_In in Hu. rewrite Hu.
    pose proof (unvisited_edges_add g u visited). lia.
  - destruct (set_contains k visited); lia.
Qed.

Section AStarRound.
Variable g : graph.
Variable end_node : station.
Variable stations_data : stations_table.

Let h : station -> R := h_value stations_data end_node.
Let step := a_star_step g end_node stations_data.

Lemma a_star_relax_spec (es : list edge) :
  forall cur u path q gs,
  exists q' gs',
    a_star_relax es cur u end_node stations_data path q gs = Some (q', gs') /\
    relaxed end_node stations_data es cur u path q gs q' gs'.
Proof.
  induction es as [| e es IH]; intros cur u path q gs.
  - exists q, gs. split; [reflexivity |].
    constructor; simpl; auto using cost_le_refl; try contradiction; lia.
  - simpl.
    destruct (cost_ltb (cur + distance e) (dict_get_default gs (to e) Inf)) eqn:E.
    + rewrite heuristic_h_value. fold h.
      set (q1 := heappush q _). set (gs1 := dict_set gs (to e) _).
      destruct (IH cur u path q1 gs1) as (q' & gs' & Hrun & Hrel).
      exists q', gs'. split; [exact Hrun |].
      assert (Hgs1 : forall x, cost_le (score gs1 x) (score gs x)).
      { intros x. subst gs1. destruct (string_dec (to e) x) as [<- | Hne].
        - rewrite score_set_same. now apply cost_ltb_true_le.
        - rewrite score_set_other by assumption. apply cost_le_refl. }
      destruct Hrel as [H1 H2 H3 H4 H5 H6].
      constructor.
      * intros x. eapply cost_le_trans; [apply H1 | apply Hgs1].
      * intros e' [<- | He'].
        -- eapply cost_le_trans; [apply H1 |].
           subst gs1. rewrite score_set_same. simpl. lra.
        -- now apply H2.
      * intros en Hen. destruct (H3 en Hen) as [Hq1 | (e' & He' & ->)].
        -- subst q1. destruct Hq1 as [<- | Hq].
           ++ right. exists e. split; [now left | reflexivity].
           ++ now left.
        -- right. exists e'. split; [now right | reflexivity].
      * intros en Hen. apply H4. subst q1. now right.
      * intros x. destruct (H5 x) as [Heq | Hex]; [| now right].
        destruct (string_dec (to e) x) as [<- | Hne].
        -- right. exists (cur + distance e), (cur + distance e + h (to e)),
             (path ++ [(u, line e)]).
           split.
           ++ rewrite Heq. subst gs1. apply score_set_same.
           ++ apply H4. subst q1. now left.
        -- left. rewrite Heq. subst gs1. now apply score_set_other.
      * subst q1. simpl in *. unfold heappush in H6. simpl in H6. lia.
    + destruct (IH cur u path q gs) as (q' & gs' & Hrun & Hrel).
      exists q', gs'. split; [exact Hrun |].
      destruct Hrel as [H1 H2 H3 H4 H5 H6].
      constructor; auto.
      * intros e' [<- | He'].
        -- eapply cost_le_trans; [apply H1 |]. now apply cost_ltb_false_le.
        -- now apply H2.
      * intros en Hen. destruct (H3 en Hen) as [Hq | (e' & He' & ->)].
        -- now left.
        -- right. exists e'. split; [now right | reflexivity].
      * simpl. lia.
Qed.

Lemma a_star_step_round (st : a_state) :
  round g end_node stations_data st (step st).
Proof.
  subst step. unfold a_star_step.
  destruct (a_queue st) as [| x l] eqn:Eq; simpl.
  - now constructor.
  - destruct (pop_min a_entry_ltb x l) as [[[[f cur] u] p] rest] eqn:Ep.
    destruct (String.eqb u end_node) eqn:Eu.
    + apply String.eqb_eq in Eu. subst u. eapply round_end; eauto.
    + apply String.eqb_neq in Eu.
      destruct (set_contains u (a_visited st)) eqn:Ev.
      * apply set_contains_In in Ev. eapply round_skip; eauto.
      * apply set_contains_not_In in Ev.
        destruct (a_star_relax_spec (edges_of g u) cur u p rest (g_scores st))
          as (q' & gs' & Hrun & Hrel).
        unfold edges_of, dict_get_default in Hrun, Hrel |- *.
        pose proof (round_expand g end_node stations_data st x l f cur u p rest q' gs'
                      Eq Ep Eu Ev) as R.
        unfold edges_of, dict_get_default in R.
        destruct (dict_get g u) as [es |] eqn:Eg.
        -- rewrite Hrun. unfold set_add. now apply R.
        -- simpl in Hrun. inversion Hrun; subst. unfold set_add. now apply R.
Qed.

Lemma a_star_step_no_raise (st : a_state) : step st <> Raise.
Proof. destruct (a_star_step_round st); discriminate. Qed.

Lemma a_star_step_decreases (st st' : a_state) :
  step st = Continue st' -> (a_measure g st' < a_measure g st)%nat.
Proof.
  intros E. pose proof (a_star_step_round st) as R. rewrite E in R.
  inversion R; subst; unfold a_measure; simpl.
  - match goal with H : pop_min _ _ _ = _ |- _ => apply pop_min_length in H end.
    match goal with H : a_queue st = _ |- _ => rewrite H end. simpl. lia.
  - match goal with H : pop_min _ _ _ = _ |- _ => apply pop_min_length in H end.
    match goal with H : a_queue st = _ |- _ => rewrite H end. simpl.
    match goal with H : relaxed _ _ _ _ _ _ _ _ _ _ |- _ =>
      pose proof (relaxed_length _ _ _ _ _ _ _ _ _ _ H) end.
    match goal with H : ~ In _ _ |- _ =>
      pose proof (unvisited_edges_expand g _ _ H) end.
    lia.
Qed.

Lemma a_star_step_count (st st' : a_state) :
  step st = Continue st' -> a_count st' = S (a_count st).
Proof.
  intros E. pose proof (a_star_step_round st) as R. rewrite E in R.
  inversion R; subst; reflexivity.
Qed.
End AStarRound.

(** ** The searches return, and count at least one dequeue *)

Lemma a_star_init_measure (g : graph) (start_node : station) :
  (a_measure g (a_star_init g start_node) < search_fuel g)%nat.
Proof.
  unfold a_measure, search_fuel. simpl. rewrite unvisited_edges_nil. lia.
Qed.

Lemma a_star_returns (g : graph) (start_node end_node : station)
  (stations_data : stations_table) :
  exists r, a_star g start_node end_node stations_data = Some r.
Proof.
  unfold a_star. apply (while_loop_terminates _ (a_measure g)).
  - apply a_star_step_no_raise.
  - apply a_star_step_decreases.
  - apply a_star_init_measure.
Qed.

Lemma dijkstra_returns (g : graph) (start_node end_node : station) :
  exists r, dijkstra g start_node end_node = Some r.
Proof. rewrite dijkstra_as_a_star. apply a_star_returns. Qed.

Lemma a_star_counts (g : graph) (start_node end_node : station)
  (stations_data : stations_table) (c : cost) (p : path_data) (n : nat) :
  a_star g start_node end_node stations_data = Some (c, p, n) -> (1 <= n)%nat.
Proof.
  unfold a_star.
  apply (while_loop_invariant (a_star_step g end_node stations_data)
           (fun st => a_queue st <> [] \/ (1 <= a_count st)%nat)
           (fun r => (1 <= snd r)%nat)) with (r := (c, p, n)).
  - intros s s' _ E. right. apply a_star_step_count in E. lia.
  - intros s r Hs E. pose proof (a_star_step_round g end_node stations_data s) as R.
    rewrite E in R. inversion R; subst; simpl; [| lia].
    destruct Hs as [Hs | Hs]; [contradiction | assumption].
  - left. discriminate.
Qed.

Lemma dijkstra_counts (g : graph) (start_node end_node : station)
  (c : cost) (p : path_data) (n : nat) :
  dijkstra g start_node end_node = Some (c, p, n) -> (1 <= n)%nat.
Proof. rewrite dijkstra_as_a_star. apply a_star_counts. Qed.

(** C10: both searches report at least one dequeue. *)
Theorem nodes_visited_positive (g : graph) (start_node end_node : station)
  (stations_data : stations_table) :
  (exists c p n,
     dijkstra g start_node end_node = Some (c, p, n) /\ (1 <= n)%nat) /\
  (exists c p n,
     a_star g start_node end_node stations_data = Some (c, p, n) /\ (1 <= n)%nat).
Proof.
  split.
  - destruct (dijkstra_returns g start_node end_node) as [[[c p] n] E].
    exists c, p, n. split; [exact E | eapply dijkstra_counts; eauto].
  - destruct (a_star_returns g start_node end_node stations_data) as [[[c p] n] E].
    exists c, p, n. split; [exact E | eapply a_star_counts; eauto].
Qed.

(** C5: a query from a station to itself costs 0, counts one dequeue, and
    formats to the one station and no line. *)
Theorem same_station (g : graph) (s : station) (stations_data : stations_table) :
  dijkstra g s s = Some (Fin 0, [(s, None)], 1%nat) /\
  a_star g s s stations_data = Some (Fin 0, [(s, None)], 1%nat) /\
  format_path [(s, None)] = RouteDict [s] [].
Proof.
  unfold dijkstra, a_star, search_fuel. simpl.
  unfold dijkstra_step, a_star_step. simpl.
  rewrite String.eqb_refl. repeat split; reflexivity.
Qed.

(** ** The queue runs empty *)

Lemma a_star_iterate_count (g : graph) (end_node : station)
  (stations_data : stations_table) (k : nat) :
  forall st st',
    iterate (a_star_step g end_node stations_data) k st = Some st' ->
    a_count st' = (a_count st + k)%nat.
Proof.
  induction k as [| k IH]; intros st st'; simpl.
  - intros H. inversion H. lia.
  - destruct (a_star_step g end_node stations_data st) as [r | s1 |] eqn:E;
      try discriminate.
    intros H. apply IH in H. apply a_star_step_count in E. lia.
Qed.

Lemma a_star_exhausted (g : graph) (start_node end_node : station)
  (stations_data : stations_table) (k : nat) (st : a_state) :
  iterate (a_star_step g end_node stations_data) k (a_star_init g start_node)
  = Some st ->
  a_queue st = [] ->
  a_star g start_node end_node stations_data = Some (Inf, [], k).
Proof.
  intros Hit Hq.
  pose proof (iterate_measure _ (a_measure g)
                (a_star_step_decreases g end_node stations_data) _ _ _ Hit) as Hm.
  pose proof (a_star_init_measure g start_node) as Hf.
  pose proof (a_star_iterate_count _ _ _ _ _ _ Hit) as Hc. simpl in Hc.
  unfold a_star.
  replace (search_fuel g) with (k + S (search_fuel g - k - 1))%nat by lia.
  rewrite (while_loop_iterate _ _ _ _ _ Hit). simpl.
  unfold a_star_step. rewrite Hq. simpl. rewrite Hc. reflexivity.
Qed.

Lemma dijkstra_exhausted (g : graph) (start_node end_node : station)
  (k : nat) (st : d_state) :
  iterate (dijkstra_step g end_node) k (dijkstra_init g start_node) = Some st ->
  d_queue st = [] ->
  dijkstra g start_node end_node = Some (Inf, [], k).
Proof.
  intros Hit Hq. rewrite dijkstra_as_a_star.
  apply (a_star_exhausted g start_node end_node [] k (lift_state st)).
  - change (a_star_init g start_node) with (lift_state (dijkstra_init g start_node)).
    rewrite iterate_lift by (intros; apply heuristic_empty).
    rewrite Hit. reflexivity.
  - unfold lift_state. simpl. rewrite Hq. reflexivity.
Qed.

(** C4: when the queue runs empty after [k] rounds, none of which dequeued
    the end station, the search returns [float('inf')], the empty path and
    [k]; a start station that is no key of the graph ends the search after
    one dequeue. *)
Theorem queue_exhausted_unreachable (g : graph) (start_node end_node : station)
  (stations_data : stations_table) :
  (forall k st,
     iterate (dijkstra_step g end_node) k (dijkstra_init g start_node) = Some st ->
     d_queue st = [] ->
     d_count st = k /\ dijkstra g start_node end_node = Some (Inf, [], k)) /\
  (forall k st,
     iterate (a_star_step g end_node stations_data) k (a_star_init g start_node)
     = Some st ->
     a_queue st = [] ->
     a_count st = k /\
     a_star g start_node end_node stations_data = Some (Inf, [], k)) /\
  (dict_get g start_node = None ->
   start_node <> end_node ->
   dijkstra g start_node end_node = Some (Inf, [], 1%nat) /\
   a_star g start_node end_node stations_data = Some (Inf, [], 1%nat)).
Proof.
  split; [| split].
  - intros k st Hit Hq. split; [| eapply dijkstra_exhausted; eauto].
    assert (H : iterate (a_star_step g end_node []) k
                  (lift_state (dijkstra_init g start_node))
                = Some (lift_state st)).
    { rewrite iterate_lift by (intros; apply heuristic_empty).
      rewrite Hit. reflexivity. }
    apply a_star_iterate_count in H. simpl in H. exact H.
  - intros k st Hit Hq. split; [| eapply a_star_exhausted; eauto].
    apply a_star_iterate_count in Hit. simpl in Hit. exact Hit.
  - intros Hkey Hne. apply String.eqb_neq in Hne.
    unfold dijkstra, a_star, search_fuel. simpl.
    unfold dijkstra_step, a_star_step. simpl.
    rewrite Hne, Hkey. simpl. split; reflexivity.
Qed.

Lemma queue_exhausted_unreachable_witness :
  dict_get line_graph "Z"%string = None /\
  "Z"%string <> "D"%string /\
  dijkstra line_graph "Z"%string "D"%string = Some (Inf, [], 1%nat) /\
  a_star line_graph "Z"%string "D"%string detour_stations = Some (Inf, [], 1%nat).
Proof.
  assert (H1 : dict_get line_graph "Z"%string = None) by reflexivity.
  assert (H2 : "Z"%string <> "D"%string) by discriminate.
  split; [exact H1 |]. split; [exact H2 |].
  exact (proj2 (proj2 (queue_exhausted_unreachable line_graph "Z"%string
                         "D"%string detour_stations)) H1 H2).
Defined.

(** ** The report of main *)

Lemma improvement_defined (d_nodes a_nodes : nat) :
  (1 <= d_nodes)%nat -> improvement d_nodes a_nodes <> None.
Proof.
  intros H. unfold improvement, true_div.
  destruct (Z.eqb (Z.of_nat d_nodes) 0) eqn:E; [| discriminate].
  apply Z.eqb_eq in E. lia.
Qed.

(** C9: no run of [main] ends in a division by zero. *)
Theorem division_guarded (argv : list string) (data : network) :
  main argv data <> Some (Uncaught ZeroDivisionError).
Proof.
  unfold main.
  destruct argv as [| prog [| start_station [| end_station rest]]]; try discriminate.
  destruct (negb (dict_contains (stations data) start_station)); [discriminate |].
  destruct (negb (dict_contains (stations data) end_station)); [discriminate |].
  destruct (dijkstra (edges data) start_station end_station)
    as [[[d_dist d_path] d_nodes] |] eqn:Ed; [| discriminate].
  destruct (a_star (edges data) start_station end_station (stations data))
    as [[[a_dist a_path] a_nodes] |]; [| discriminate].
  destruct d_dist; [| discriminate].
  destruct (format_path a_path); [discriminate |].
  destruct (improvement d_nodes a_nodes) eqn:Ei; [discriminate |].
  exfalso. apply dijkstra_counts in Ed.
  now apply (improvement_defined d_nodes a_nodes).
Qed.

(** ** Walks *)

Lemma walk_cost_app (es1 es2 : list edge) :
  walk_cost (es1 ++ es2) = walk_cost es1 + walk_cost es2.
Proof.
  induction es1 as [| e es1 IH]; simpl; [lra |]. rewrite IH. lra.
Qed.

Lemma walk_snoc (g : graph) (u v : station) (es : list edge) (e : edge) :
  walk g u es v -> In e (edges_of g v) -> walk g u (es ++ [e]) (to e).
Proof.
  induction 1 as [u | u e0 es v He0 Hw IH]; intros He; simpl.
  - apply walk_cons; [assumption | constructor].
  - apply walk_cons; auto.
Qed.

Lemma walk_snoc_inv (g : graph) (es : list edge) :
  forall u v e, walk g u (es ++ [e]) v ->
    exists w, walk g u es w /\ In e (edges_of g w) /\ to e = v.
Proof.
  induction es as [| e0 es IH]; intros u v e H; simpl in H.
  - inversion H; subst.
    match goal with H' : walk _ _ [] _ |- _ => inversion H'; subst end.
    exists u. repeat split; [constructor | assumption].
  - inversion H; subst.
    match goal with H' : walk _ _ (es ++ [e]) _ |- _ =>
      destruct (IH _ _ _ H') as (w & Hw & He & Hto) end.
    exists w. repeat split; auto. apply walk_cons; assumption.
Qed.

Lemma walk_cost_nonneg (g : graph) (u v : station) (es : list edge) :
  nonneg_weights g -> walk g u es v -> 0 <= walk_cost es.
Proof.
  intros Hnn. induction 1 as [u | u e es v He Hw IH]; simpl; [lra |].
  specialize (Hnn u e He). lra.
Qed.

Lemma optimal_cost_unique (g : graph) (s t : station) (c1 c2 : cost) :
  optimal_cost g s t c1 -> optimal_cost g s t c2 -> c1 = c2.
Proof.
  destruct c1 as [d1 |], c2 as [d2 |]; simpl.
  - intros [[es1 [W1 E1]] M1] [[es2 [W2 E2]] M2].
    specialize (M1 es2 W2). specialize (M2 es1 W1). f_equal. lra.
  - intros [[es1 [W1 _]] _] H. exfalso. eapply H; eauto.
  - intros H [[es2 [W2 _]] _]. exfalso. eapply H; eauto.
  - reflexivity.
Qed.

Lemma nonneg_weights_Forall (g : graph) :
  Forall (fun kv => Forall (fun e => 0 <= distance e) (snd kv)) g ->
  nonneg_weights g.
Proof.
  intros H u e He. unfold edges_of, dict_get_default in He.
  destruct (dict_get g u) as [es |] eqn:E; [| contradiction].
  apply dict_get_In in E. rewrite Forall_forall in H.
  specialize (H _ E). simpl in H. rewrite Forall_forall in H. auto.
Qed.

Lemma consistent_Forall (g : graph) (h : station -> R) :
  Forall (fun kv => Forall (fun e => h (fst kv) <= distance e + h (to e)) (snd kv)) g ->
  consistent g h.
Proof.
  intros H u e He. unfold edges_of, dict_get_default in He.
  destruct (dict_get g u) as [es |] eqn:E; [| contradiction].
  apply dict_get_In in E. rewrite Forall_forall in H.
  specialize (H _ E). simpl in H. rewrite Forall_forall in H. auto.
Qed.

Lemma score_all_inf (g : graph) (x : station) : score (all_inf g) x = Inf.
Proof.
  unfold all_inf.
  assert (H : forall d : dict cost,
             (forall y, score d y = Inf) ->
             forall y, score (fold_left
                                (fun (d : dict cost) (kv : string * list edge) =>
                                   dict_set d (fst kv) Inf) g d) y = Inf).
  { induction g as [| [k es] g IH]; intros d Hd y; simpl; [apply Hd |].
    apply IH. intros z. destruct (string_dec k z) as [<- | Hne].
    - apply score_set_same.
    - rewrite score_set_other by assumption. apply Hd. }
  apply H. reflexivity.
Qed.

(** ** a_star finds the least cost when its estimate is consistent *)

Section Optimality.
Variable g : graph.
Variable start_node end_node : station.
Variable stations_data : stations_table.

Let h : station -> R := h_value stations_data end_node.

Hypothesis weights_nonneg : nonneg_weights g.
Hypothesis h_consistent : consistent g h.

(** Every walk from the start to a station not yet visited is witnessed by
    a queue entry whose key does not exceed the walk's cost plus the estimate. *)
Lemma frontier (st : a_state) (es : list edge) :
  a_inv g start_node end_node stations_data st ->
  forall x, walk g start_node es x -> ~ In x (a_visited st) ->
    exists f cur n p, In (f, cur, n, p) (a_queue st) /\ f <= walk_cost es + h x.
Proof.
  intros [He Hv Ho Hs]. unfold h.
  induction es as [| e es IH] using rev_ind; intros x Hw Hx.
  - assert (Hxs : x = start_node) by (inversion Hw; reflexivity). subst x.
    destruct (score (g_scores st) start_node) as [c |] eqn:Ec; [| contradiction].
    simpl in Hs. destruct (Ho start_node c Hx Ec) as (f & p & Hin).
    exists f, c, start_node, p. split; [assumption |].
    destruct (He _ _ _ _ Hin) as [-> _]. simpl. lra.
  - apply walk_snoc_inv in Hw. destruct Hw as (w & Hw & Hin & <-).
    rewrite walk_cost_app. simpl.
    destruct (in_dec string_dec w (a_visited st)) as [Hvis | Hnot].
    + destruct (Hv w Hvis) as [_ Hrel]. specialize (Hrel es e Hw Hin).
      destruct (score (g_scores st) (to e)) as [c |] eqn:Ec; [| contradiction].
      simpl in Hrel. destruct (Ho (to e) c Hx Ec) as (f & p & Hq).
      exists f, c, (to e), p. split; [assumption |].
      destruct (He _ _ _ _ Hq) as [-> _]. lra.
    + destruct (IH w Hw Hnot) as (f & cur & n & p & Hq & Hle).
      exists f, cur, n, p. split; [assumption |].
      pose proof (h_consistent w e Hin) as Hc. unfold h in Hc. lra.
Qed.

Lemma popped_least (st : a_state) (x : a_entry) (l rest : list a_entry)
  (f cur : R) (u : station) (p : qpath) :
  a_inv g start_node end_node stations_data st ->
  a_queue st = x :: l ->
  pop_min a_entry_ltb x l = ((f, cur, u, p), rest) ->
  ~ In u (a_visited st) ->
  forall es, walk g start_node es u -> cur <= walk_cost es.
Proof.
  intros Hinv Hq Hpop Hu es Hw.
  destruct (frontier st es Hinv u Hw Hu) as (f' & cur' & n' & p' & Hin & Hle).
  rewrite Hq in Hin.
  pose proof (pop_min_least a_entry_ltb (fun a => fst (fst (fst a)))
                a_entry_ltb_true a_entry_ltb_false _ _ _ _ _ Hpop Hin) as Hmin.
  simpl in Hmin.
  assert (Hpopped : In (f, cur, u, p) (a_queue st)).
  { rewrite Hq. apply (pop_min_In a_entry_ltb l x _ rest _ Hpop). now left. }
  destruct (inv_entries _ _ _ _ st Hinv _ _ _ _ Hpopped) as [Hf _]. fold h in Hf. lra.
Qed.

Lemma expand_keeps (rest : list a_entry) (visited : list station)
  (gs : dict cost) (cur : R) (u : station) (p : qpath)
  (q' : list a_entry) (gs' : dict cost) (count : nat) :
  entries_ok g start_node end_node stations_data rest ->
  visited_ok g start_node end_node visited gs ->
  open_ok rest (u :: visited) gs ->
  cost_le (score gs start_node) (Fin 0) ->
  u <> end_node ->
  (exists es, walk g start_node es u /\ walk_cost es = cur) ->
  (forall es, walk g start_node es u -> cur <= walk_cost es) ->
  relaxed end_node stations_data (edges_of g u) cur u p rest gs q' gs' ->
  a_inv g start_node end_node stations_data (mkAState q' (u :: visited) gs' count).
Proof.
  intros He Hv Ho Hs Hu [es0 [Hw0 Hc0]] Hleast [R1 R2 R3 R4 R5 R6].
  constructor; simpl.
  - intros f c n pth Hin. destruct (R3 _ Hin) as [Hold | (e & Hine & Heq)].
    + exact (He _ _ _ _ Hold).
    + unfold pushed in Heq. inversion Heq; subst. fold h. split; [reflexivity |].
      exists (es0 ++ [e]). split; [apply (walk_snoc g start_node u); assumption |].
      rewrite walk_cost_app. simpl. lra.
  - intros v [<- | Hin].
    + split; [assumption |]. intros es e Hw Hine.
      eapply cost_le_trans; [apply (R2 e Hine) |]. simpl.
      specialize (Hleast es Hw). lra.
    + destruct (Hv v Hin) as [Hne Hrel]. split; [assumption |].
      intros es e Hw Hine.
      eapply cost_le_trans; [apply R1 | exact (Hrel es e Hw Hine)].
  - intros x c Hx Hsc. destruct (R5 x) as [Heq | (g' & f & pth & Hg' & Hin)].
    + rewrite Heq in Hsc. destruct (Ho x c Hx Hsc) as (f & pth & Hin).
      exists f, pth. now apply R4.
    + rewrite Hg' in Hsc. inversion Hsc; subst. eauto.
  - eapply cost_le_trans; [apply R1 | exact Hs].
Qed.

Lemma step_keeps (st st' : a_state) :
  search_inv g start_node end_node stations_data st ->
  a_star_step g end_node stations_data st = Continue st' ->
  search_inv g start_node end_node stations_data st'.
Proof.
  intros Hinv E. right.
  pose proof (a_star_step_round g end_node stations_data st) as R.
  rewrite E in R. destruct Hinv as [-> | Hinv].
  - simpl in R. inversion R; subst; simpl in *.
    + contradiction.
    + match goal with H : _ :: nil = _ :: _ |- _ => injection H as Hx Hl end.
      subst x l.
      match goal with H : pop_min _ _ [] = _ |- _ =>
        simpl in H; injection H as Hf Hc Hu Hp Hr end.
      subst f cur u p rest.
      eapply expand_keeps; eauto.
      * intros f cur n p [].
      * intros v [].
      * intros x c Hx Hsc. exfalso.
        rewrite score_set_other in Hsc by (intros ->; apply Hx; now left).
        rewrite score_all_inf in Hsc. discriminate.
      * rewrite score_set_same. simpl. lra.
      * exists []. split; [constructor | reflexivity].
      * intros es Hw. eapply walk_cost_nonneg; eauto.
  - destruct Hinv as [He Hv Ho Hs].
    inversion R; subst; simpl in *.
    + match goal with H : pop_min _ _ _ = _ |- _ =>
        pose proof (fun z => pop_min_In a_entry_ltb _ _ _ _ z H) as Hmem end.
      match goal with H : a_queue st = _ |- _ => rewrite H in * end.
      constructor; simpl; auto.
      * intros f' c n pth Hin. apply (He f' c n pth). apply Hmem. now right.
      * intros y c Hy Hsc. destruct (Ho y c Hy Hsc) as (f' & pth & Hin).
        apply Hmem in Hin. destruct Hin as [Heq | Hin]; [| eauto].
        inversion Heq; subst. contradiction.
    + match goal with
      | Hq : a_queue st = _ :: _, Hp : pop_min _ _ _ = _,
        Hne : _ <> end_node, Hnv : ~ In _ _,
        Hrel : relaxed _ _ _ _ _ _ _ _ _ _ |- _ =>
          pose proof (fun z => pop_min_In a_entry_ltb _ _ _ _ z Hp) as Hmem;
          pose proof (popped_least st _ _ _ _ _ _ _
                        (Build_a_inv g start_node end_node stations_data st He Hv Ho Hs)
                        Hq Hp Hnv) as Hleast;
          rewrite Hq in *;
          refine (expand_keeps _ _ _ _ _ _ _ _ _ _ Hv _ Hs Hne _ Hleast Hrel)
      end.
      * intros f' c n pth Hin. apply (He f' c n pth). apply Hmem. now right.
      * intros y c Hy Hsc.
        assert (Hy' : ~ In y (a_visited st)) by (intros ?; apply Hy; now right).
        destruct (Ho y c Hy' Hsc) as (f' & pth & Hin).
        apply Hmem in Hin. destruct Hin as [Heq | Hin]; [| eauto].
        inversion Heq; subst. exfalso. apply Hy. now left.
      * apply (He f cur u p). apply Hmem. now left.
Qed.

Lemma step_returns (st : a_state) (r : search_result) :
  search_inv g start_node end_node stations_data st ->
  a_star_step g end_node stations_data st = Return r ->
  optimal_cost g start_node end_node (fst (fst r)).
Proof.
  intros Hinv E.
  pose proof (a_star_step_round g end_node stations_data st) as R.
  rewrite E in R. destruct Hinv as [-> | Hinv].
  - simpl in R. inversion R; subst; simpl in *; [discriminate |].
    match goal with H : _ :: nil = _ :: _ |- _ => injection H as Hx Hl end.
    subst x l.
    match goal with H : pop_min _ _ [] = _ |- _ =>
      simpl in H; injection H as Hf Hc Hu Hp Hr end.
    subst f cur p rest. rewrite <- Hu.
    split.
    + exists []. split; [constructor | reflexivity].
    + intros es Hw. eapply walk_cost_nonneg; eauto.
  - assert (Hend : ~ In end_node (a_visited st)).
    { intros Hin. destruct (inv_visited _ _ _ _ st Hinv _ Hin) as [Hne _]. now apply Hne. }
    inversion R; subst; simpl.
    + intros es Hw.
      destruct (frontier st es Hinv end_node Hw Hend) as (f & c & n & p & Hin & _).
      match goal with H : a_queue st = [] |- _ => rewrite H in Hin end.
      contradiction.
    + split.
      * match goal with H : pop_min _ _ _ = _ |- _ =>
          pose proof (pop_min_In a_entry_ltb _ _ _ _ (f, cur, end_node, p) H) as Hmem
        end.
        apply (inv_entries _ _ _ _ st Hinv f cur end_node p).
        match goal with H : a_queue st = _ |- _ => rewrite H end.
        apply Hmem. now left.
      * eapply popped_least; eauto.
Qed.

Lemma a_star_optimal_run (c : cost) (p : path_data) (n : nat) :
  a_star g start_node end_node stations_data = Some (c, p, n) ->
  optimal_cost g start_node end_node c.
Proof.
  unfold a_star. intros H.
  apply (while_loop_invariant (a_star_step g end_node stations_data)
           (search_inv g start_node end_node stations_data)
           (fun r => optimal_cost g start_node end_node (fst (fst r)))
           step_keeps step_returns _ _ (c, p, n)) in H; [exact H |].
  now left.
Qed.
End Optimality.

Lemma h_value_empty (end_node n : station) : h_value [] end_node n = 0.
Proof. reflexivity. Qed.

Lemma dijkstra_optimal_run (g : graph) (start_node end_node : station)
  (c : cost) (p : path_data) (n : nat) :
  nonneg_weights g ->
  dijkstra g start_node end_node = Some (c, p, n) ->
  optimal_cost g start_node end_node c.
Proof.
  intros Hnn. rewrite dijkstra_as_a_star.
  apply a_star_optimal_run; [assumption |].
  intros u e He. rewrite !h_value_empty. specialize (Hnn u e He). lra.
Qed.

(** ** The example network of four stations on one line *)

Lemma line_graph_nonneg : nonneg_weights line_graph.
Proof.
  apply nonneg_weights_Forall. unfold line_graph.
  repeat constructor; simpl; lra.
Qed.

(** ** dijkstra returns the least cost *)



(** ** a_star against dijkstra *)



(** ** haversine on the real numbers *)

Lemma haversine_same (la lo : R) : haversine la lo la lo = 0.
Proof.
  unfold haversine.
  replace ((radians la - radians la) / 2) with 0 by lra.
  replace ((radians lo - radians lo) / 2) with 0 by lra.
  rewrite sin_0.
  replace (0 ^ 2 + cos (radians la) * cos (radians la) * 0 ^ 2) with 0 by (simpl; lra).
  rewrite sqrt_0, asin_0. lra.
Qed.

Lemma sin_half_neg_sq (x y : R) : sin ((x - y) / 2) ^ 2 = sin ((y - x) / 2) ^ 2.
Proof.
  replace ((x - y) / 2) with (- ((y - x) / 2)) by lra.
  rewrite sin_neg. simpl. lra.
Qed.

Lemma haversine_sym (la1 lo1 la2 lo2 : R) :
  haversine la1 lo1 la2 lo2 = haversine la2 lo2 la1 lo1.
Proof.
  unfold haversine.
  rewrite (sin_half_neg_sq (radians la2) (radians la1)).
  rewrite (sin_half_neg_sq (radians lo2) (radians lo1)).
  rewrite (Rmult_comm (cos (radians la1)) (cos (radians la2))).
  reflexivity.
Qed.

Lemma km_per_degree_bounds : 106 < km_per_degree <= 142.
Proof.
  unfold km_per_degree. pose proof PI2_3_2. pose proof PI_4. lra.
Qed.

(** From a point of the equator to the point of longitude 0. *)
Lemma haversine_equator (x : R) :
  0 <= x <= 180 -> haversine 0 x 0 0 = x * km_per_degree.
Proof.
  intros Hx. unfold haversine, km_per_degree, radians.
  pose proof PI_RGT_0 as Hpi.
  set (t := x * (PI / 180)).
  assert (Ht : 0 <= t / 2 <= PI / 2).
  { subst t. split.
    - apply Rmult_le_pos; [| lra]. apply Rmult_le_pos; lra.
    - assert (x * (PI / 180) <= 180 * (PI / 180)).
      { apply Rmult_le_compat_r; lra. }
      lra. }
  replace ((0 * (PI / 180) - 0 * (PI / 180)) / 2) with 0 by lra.
  replace (0 * (PI / 180)) with 0 by lra.
  rewrite (sin_half_neg_sq 0 t).
  replace ((t - 0) / 2) with (t / 2) by lra.
  rewrite sin_0, cos_0.
  replace (0 ^ 2 + 1 * 1 * sin (t / 2) ^ 2) with (sin (t / 2) ^ 2) by (simpl; lra).
  rewrite sqrt_pow2 by (apply sin_ge_0; lra).
  rewrite asin_sin by lra.
  subst t. lra.
Qed.

(** ** Running the searches on given networks *)

Lemma Reqb_false_lt (a b : R) : a < b -> Reqb a b = false.
Proof. intros. apply Reqb_false. lra. Qed.

Lemma Reqb_false_gt (a b : R) : b < a -> Reqb a b = false.
Proof. intros. apply Reqb_false. lra. Qed.

(** Settle the comparisons of real numbers that block a computation. *)
Ltac decide_R :=
  repeat match goal with
  | |- context [Reqb ?a ?b] =>
      first [ rewrite (Reqb_true a b) by lra
            | rewrite (Reqb_false_lt a b) by lra
            | rewrite (Reqb_false_gt a b) by lra ]
  | |- context [Rltb ?a ?b] =>
      first [ rewrite (Rltb_true a b) by lra | rewrite (Rltb_false a b) by lra ]
  end.

(** Run a search round by round; [estimates] rewrites the values of [heuristic]. *)
Ltac run_search estimates :=
  repeat (progress
            (cbn -[Rltb Reqb PI IZR Rplus Rdiv Rmult heuristic km_per_degree];
             decide_R; estimates)).

(** Close a goal whose two results differ in the writing of the cost only. *)
Ltac same_result :=
  match goal with
  | |- Some (Fin ?a, ?p, ?n) = Some (Fin ?b, _, _) =>
      replace a with b by lra; reflexivity
  end.

(** The end-to-end scenario on the line of four stations. *)
Example line_graph_dijkstra :
  dijkstra line_graph "A"%string "D"%string
  = Some (Fin (9 / 2),
          [("A"%string, Some "Red"%string); ("B"%string, Some "Red"%string);
           ("C"%string, Some "Blue"%string); ("D"%string, None)], 4%nat)
  /\ format_path [("A"%string, Some "Red"%string); ("B"%string, Some "Red"%string);
                  ("C"%string, Some "Blue"%string); ("D"%string, None)]
     = RouteDict ["A"%string; "B"%string; "C"%string; "D"%string]
         [Some "Red"%string; Some "Blue"%string].
Proof.
  split; [| reflexivity].
  unfold dijkstra, search_fuel, edge_count, line_graph, dijkstra_init, all_inf.
  run_search idtac. same_result.
Qed.

(** *** An admissible table on which a_star misses the least cost *)

Lemma tunnel_graph_nonneg : nonneg_weights tunnel_graph.
Proof.
  apply nonneg_weights_Forall. unfold tunnel_graph.
  repeat constructor; simpl; lra.
Qed.

Ltac tunnel_estimate :=
  unfold heuristic, tunnel_stations; cbn -[haversine];
  rewrite haversine_equator by lra; reflexivity.

Lemma tunnel_estimate_S :
  heuristic "S"%string "E"%string tunnel_stations = Some (5 * km_per_degree).
Proof. tunnel_estimate. Qed.

Lemma tunnel_estimate_A :
  heuristic "A"%string "E"%string tunnel_stations = Some (10 * km_per_degree).
Proof. tunnel_estimate. Qed.

Lemma tunnel_estimate_B :
  heuristic "B"%string "E"%string tunnel_stations = Some (1 * km_per_degree).
Proof. tunnel_estimate. Qed.

Lemma tunnel_estimate_E :
  heuristic "E"%string "E"%string tunnel_stations = Some (0 * km_per_degree).
Proof. tunnel_estimate. Qed.

Lemma tunnel_estimate_other (u : station) :
  String.eqb "S" u = false -> String.eqb "A" u = false ->
  String.eqb "B" u = false -> String.eqb "E" u = false ->
  heuristic u "E"%string tunnel_stations = Some 0.
Proof.
  intros ES EA EB EE. unfold heuristic, tunnel_stations, dict_contains.
  cbn [existsb fst]. rewrite ES, EA, EB, EE. reflexivity.
Qed.

Ltac tunnel_estimates :=
  rewrite ?tunnel_estimate_S, ?tunnel_estimate_A, ?tunnel_estimate_B,
    ?tunnel_estimate_E.

Lemma admissible_below (g : graph) (end_node : station) (h pot : station -> R) :
  consistent g pot -> pot end_node <= 0 -> (forall u, h u <= pot u) ->
  admissible g end_node h.
Proof.
  intros Hc He Hle u es Hw.
  assert (Hpot : pot u <= walk_cost es).
  { induction Hw as [u | u e es v Hin Hw IH]; simpl.
    - exact He.
    - specialize (Hc u e Hin). lra. }
  specialize (Hle u). lra.
Qed.

Lemma tunnel_admissible :
  admissible tunnel_graph "E"%string (h_value tunnel_stations "E"%string).
Proof.
  pose proof km_per_degree_bounds as Hkm.
  apply (admissible_below _ _ _ tunnel_remaining).
  - apply consistent_Forall. unfold tunnel_graph, tunnel_remaining.
    repeat constructor; simpl; lra.
  - unfold tunnel_remaining. simpl. lra.
  - intros u. unfold h_value, tunnel_remaining.
    destruct (String.eqb "S" u) eqn:ES.
    { apply String.eqb_eq in ES. subst u. rewrite tunnel_estimate_S. lra. }
    destruct (String.eqb "A" u) eqn:EA.
    { apply String.eqb_eq in EA. subst u. rewrite tunnel_estimate_A. lra. }
    destruct (String.eqb "B" u) eqn:EB.
    { apply String.eqb_eq in EB. subst u. rewrite tunnel_estimate_B. lra. }
    destruct (String.eqb "E" u) eqn:EE.
    { apply String.eqb_eq in EE. subst u. rewrite tunnel_estimate_E. lra. }
    rewrite tunnel_estimate_other by assumption. lra.
Qed.

(** The estimate drops by more than the weight along the edge from A to B. *)
Lemma tunnel_not_consistent :
  ~ consistent tunnel_graph (h_value tunnel_stations "E"%string).
Proof.
  pose proof km_per_degree_bounds as Hkm.
  intros Hc. specialize (Hc "A"%string (mkEdge "B" 100 "Red")).
  unfold h_value in Hc. simpl to in Hc. simpl distance in Hc.
  rewrite tunnel_estimate_A, tunnel_estimate_B in Hc.
  assert (Hin : In (mkEdge "B" 100 "Red") (edges_of tunnel_graph "A"%string))
    by (left; reflexivity).
  specialize (Hc Hin). lra.
Qed.

Lemma tunnel_a_star :
  a_star tunnel_graph "S"%string "E"%string tunnel_stations
  = Some (Fin 1900,
          [("S"%string, Some "Blue"%string); ("B"%string, Some "Blue"%string);
           ("E"%string, None)], 5%nat).
Proof.
  pose proof km_per_degree_bounds as Hkm.
  unfold a_star, search_fuel, edge_count, tunnel_graph, a_star_init, all_inf.
  run_search tunnel_estimates. same_result.
Qed.

Lemma tunnel_dijkstra :
  dijkstra tunnel_graph "S"%string "E"%string
  = Some (Fin 1600,
          [("S"%string, Some "Red"%string); ("A"%string, Some "Red"%string);
           ("B"%string, Some "Blue"%string); ("E"%string, None)], 5%nat).
Proof.
  unfold dijkstra, search_fuel, edge_count, tunnel_graph, dijkstra_init, all_inf.
  run_search idtac. same_result.
Qed.


(** *** A consistent table on which a_star dequeues more often *)

Lemma detour_graph_nonneg : nonneg_weights detour_graph.
Proof.
  apply nonneg_weights_Forall. unfold detour_graph.
  repeat constructor; simpl; lra.
Qed.

Ltac detour_estimate :=
  unfold heuristic, detour_stations; cbn -[haversine];
  rewrite haversine_equator by lra; reflexivity.

Lemma detour_estimate_S :
  heuristic "S"%string "E"%string detour_stations = Some (10 * km_per_degree).
Proof. detour_estimate. Qed.

Lemma detour_estimate_A :
  heuristic "A"%string "E"%string detour_stations = Some (11 * km_per_degree).
Proof. detour_estimate. Qed.

Lemma detour_estimate_B :
  heuristic "B"%string "E"%string detour_stations = Some (9 * km_per_degree).
Proof. detour_estimate. Qed.

Lemma detour_estimate_V :
  heuristic "V"%string "E"%string detour_stations = Some (8 * km_per_degree).
Proof. detour_estimate. Qed.

Lemma detour_estimate_E :
  heuristic "E"%string "E"%string detour_stations = Some (0 * km_per_degree).
Proof. detour_estimate. Qed.

Ltac detour_estimates :=
  rewrite ?detour_estimate_S, ?detour_estimate_A, ?detour_estimate_B,
    ?detour_estimate_V, ?detour_estimate_E.

Lemma detour_consistent :
  consistent detour_graph (h_value detour_stations "E"%string).
Proof.
  pose proof km_per_degree_bounds as Hkm.
  apply consistent_Forall. unfold detour_graph, h_value.
  repeat constructor; simpl fst; simpl snd; simpl to; simpl distance;
    detour_estimates; lra.
Qed.

Lemma consistent_admissible (g : graph) (end_node : station) (h : station -> R) :
  consistent g h -> h end_node <= 0 -> admissible g end_node h.
Proof.
  intros Hc He u es Hw. induction Hw as [u | u e es v Hin Hw IH]; simpl.
  - exact He.
  - specialize (Hc u e Hin). lra.
Qed.

Lemma detour_admissible :
  admissible detour_graph "E"%string (h_value detour_stations "E"%string).
Proof.
  apply consistent_admissible; [exact detour_consistent |].
  unfold h_value. rewrite detour_estimate_E. lra.
Qed.

Lemma detour_a_star :
  a_star detour_graph "S"%string "E"%string detour_stations
  = Some (Fin 1780,
          [("S"%string, Some "Red"%string); ("A"%string, Some "Red"%string);
           ("V"%string, Some "Red"%string); ("E"%string, None)], 6%nat).
Proof.
  pose proof km_per_degree_bounds as Hkm.
  unfold a_star, search_fuel, edge_count, detour_graph, a_star_init, all_inf.
  run_search detour_estimates. same_result.
Qed.

Lemma detour_dijkstra :
  dijkstra detour_graph "S"%string "E"%string
  = Some (Fin 1780,
          [("S"%string, Some "Red"%string); ("A"%string, Some "Red"%string);
           ("V"%string, Some "Red"%string); ("E"%string, None)], 5%nat).
Proof.
  unfold dijkstra, search_fuel, edge_count, detour_graph, dijkstra_init, all_inf.
  run_search idtac. same_result.
Qed.



Lemma partial_stations_zero :
  forall u e, In e (edges_of line_graph u) ->
    heuristic (to e) "D"%string partial_stations = Some 0.
Proof.
  intros u e _. unfold heuristic.
  replace (dict_contains partial_stations "D"%string) with false by reflexivity.
  simpl. rewrite orb_true_r. reflexivity.
Qed.


(** * Further properties of the searches *)

(** ** The returned path is a walk of the graph *)

Lemma close_path_qpath_of (g : graph) (s n : station) (es : list edge) :
  walk g s es n -> close_path (qpath_of s es) n = route_of s es.
Proof.
  induction 1 as [u | u e es v He Hw IH]; [reflexivity |].
  unfold close_path in *. simpl. rewrite IH. reflexivity.
Qed.

Lemma qpath_of_snoc (g : graph) (s u : station) (es : list edge) (e : edge) :
  walk g s es u -> qpath_of s (es ++ [e]) = qpath_of s es ++ [(u, line e)].
Proof.
  induction 1 as [u | u e0 es v He Hw IH]; [reflexivity |].
  simpl. rewrite IH. reflexivity.
Qed.

Lemma cost_le_Fin_finite (c : cost) (d : R) : cost_le c (Fin d) -> c <> Inf.
Proof. destruct c; simpl; [discriminate | contradiction]. Qed.

Lemma cost_le_finite (a b : cost) : cost_le a b -> b <> Inf -> a <> Inf.
Proof. destruct a, b; simpl; try discriminate; try contradiction; congruence. Qed.

Section Reachability.
Variable g : graph.
Variable start_node end_node : station.
Variable stations_data : stations_table.

Lemma reach_inv_init : reach_inv g start_node end_node (a_star_init g start_node).
Proof.
  constructor; simpl.
  - intros f cur n p [H | []]. inversion H; subst.
    exists []. repeat split. constructor.
  - intros v [].
  - intros x c _ Hsc. destruct (string_dec start_node x) as [<- | Hne].
    + rewrite score_set_same in Hsc. inversion Hsc; subst.
      exists 0, []. now left.
    + rewrite score_set_other in Hsc by assumption.
      rewrite score_all_inf in Hsc. discriminate.
  - rewrite score_set_same. discriminate.
Qed.

(** A walk from the start to a station not yet visited leaves an entry on
    the queue. *)
Lemma reach_frontier (st : a_state) (es : list edge) :
  reach_inv g start_node end_node st ->
  forall x, walk g start_node es x -> ~ In x (a_visited st) -> a_queue st <> [].
Proof.
  intros [He Hv Ho Hs].
  assert (Hopen : forall x, ~ In x (a_visited st) -> score (g_scores st) x <> Inf ->
                    a_queue st <> []).
  { intros x Hx Hsc. destruct (score (g_scores st) x) as [c |] eqn:Ec;
      [| contradiction].
    destruct (Ho x c Hx Ec) as (f & p & Hin). intros Hq. rewrite Hq in Hin.
    contradiction. }
  induction es as [| e es IH] using rev_ind; intros x Hw Hx.
  - assert (Hxs : x = start_node) by (inversion Hw; reflexivity). subst x.
    now apply (Hopen start_node).
  - apply walk_snoc_inv in Hw. destruct Hw as (w & Hw & Hin & <-).
    destruct (in_dec string_dec w (a_visited st)) as [Hvis | Hnot].
    + destruct (Hv w Hvis) as [_ Hrel]. apply (Hopen (to e) Hx). now apply Hrel.
    + now apply (IH w).
Qed.

Lemma reach_step_keeps (st st' : a_state) :
  reach_inv g start_node end_node st ->
  a_star_step g end_node stations_data st = Continue st' ->
  reach_inv g start_node end_node st'.
Proof.
  intros [He Hv Ho Hs] E.
  pose proof (a_star_step_round g end_node stations_data st) as R.
  rewrite E in R. inversion R; subst; simpl in *.
  - match goal with H : pop_min _ _ _ = _ |- _ =>
      pose proof (fun z => pop_min_In a_entry_ltb _ _ _ _ z H) as Hmem end.
    match goal with H : a_queue st = _ |- _ => rewrite H in * end.
    constructor; simpl; auto.
    + intros f' c n pth Hin. apply (He f' c n pth). apply Hmem. now right.
    + intros y c Hy Hsc. destruct (Ho y c Hy Hsc) as (f' & pth & Hin).
      apply Hmem in Hin. destruct Hin as [Heq | Hin]; [| eauto].
      inversion Heq; subst. contradiction.
  - match goal with
    | Hq : a_queue st = _ :: _, Hp : pop_min _ _ _ = _,
      Hne : _ <> end_node, Hnv : ~ In _ _,
      Hrel : relaxed _ _ _ _ _ _ _ _ _ _ |- _ =>
        pose proof (fun z => pop_min_In a_entry_ltb _ _ _ _ z Hp) as Hmem;
        rewrite Hq in *; destruct Hrel as [R1 R2 R3 R4 R5 R6]
    end.
    assert (Hpop : exists es0, walk g start_node es0 u /\
                     p = qpath_of start_node es0 /\ walk_cost es0 = cur).
    { apply (He f cur u p). apply Hmem. now left. }
    destruct Hpop as (es0 & Hw0 & Hp0 & Hc0).
    constructor; simpl.
    + intros f' c n pth Hin. destruct (R3 _ Hin) as [Hold | (e & Hine & Heq)].
      * apply (He f' c n pth). apply Hmem. now right.
      * unfold pushed in Heq. inversion Heq; subst.
        exists (es0 ++ [e]). split; [apply (walk_snoc g start_node u); assumption |].
        split; [symmetry; now apply (qpath_of_snoc g) |].
        rewrite walk_cost_app. simpl. lra.
    + intros v [<- | Hin].
      * split; [assumption |]. intros e Hine.
        eapply cost_le_Fin_finite. apply (R2 e Hine).
      * destruct (Hv v Hin) as [Hne' Hrel]. split; [assumption |].
        intros e Hine. eapply cost_le_finite; [apply R1 | now apply Hrel].
    + intros y c Hy Hsc. destruct (R5 y) as [Heq | (g' & f' & pth & Hg' & Hin)].
      * rewrite Heq in Hsc.
        assert (Hy' : ~ In y (a_visited st)) by (intros ?; apply Hy; now right).
        destruct (Ho y c Hy' Hsc) as (f' & pth & Hin).
        apply Hmem in Hin. destruct Hin as [Heq' | Hin].
        -- inversion Heq'; subst. exfalso. apply Hy. now left.
        -- exists f', pth. now apply R4.
      * rewrite Hg' in Hsc. inversion Hsc; subst. eauto.
    + eapply cost_le_finite; [apply R1 | exact Hs].
Qed.

Lemma reach_step_returns (st : a_state) (r : search_result) :
  reach_inv g start_node end_node st ->
  a_star_step g end_node stations_data st = Return r ->
  result_sound g start_node end_node r.
Proof.
  intros Hinv E.
  pose proof (a_star_step_round g end_node stations_data st) as R.
  rewrite E in R.
  assert (Hend : ~ In end_node (a_visited st)).
  { intros Hin. destruct (reach_visited _ _ _ st Hinv _ Hin) as [Hne _].
    now apply Hne. }
  inversion R; subst; simpl.
  - split; [reflexivity |]. intros es Hw.
    now apply (reach_frontier st es Hinv end_node Hw Hend).
  - match goal with H : pop_min _ _ _ = _ |- _ =>
      pose proof (pop_min_In a_entry_ltb _ _ _ _ (f, cur, end_node, p) H) as Hmem
    end.
    assert (Hin : In (f, cur, end_node, p) (a_queue st)).
    { match goal with H : a_queue st = _ |- _ => rewrite H end.
      apply Hmem. now left. }
    destruct (reach_entries _ _ _ st Hinv _ _ _ _ Hin) as (es & Hw & Hp & Hc).
    exists es. split; [assumption |]. split; [assumption |].
    subst p. now apply (close_path_qpath_of g).
Qed.

Lemma a_star_result_sound (r : search_result) :
  a_star g start_node end_node stations_data = Some r ->
  result_sound g start_node end_node r.
Proof.
  unfold a_star. intros H.
  apply (while_loop_invariant (a_star_step g end_node stations_data)
           (reach_inv g start_node end_node)
           (result_sound g start_node end_node)
           reach_step_keeps reach_step_returns _ _ r) in H; [exact H |].
  apply reach_inv_init.
Qed.
End Reachability.

Lemma dijkstra_result_sound (g : graph) (start_node end_node : station)
  (r : search_result) :
  dijkstra g start_node end_node = Some r ->
  result_sound g start_node end_node r.
Proof. rewrite dijkstra_as_a_star. apply a_star_result_sound. Qed.


Lemma sound_optimal_shortest (g : graph) (s t : station) (c : cost)
  (p : path_data) (n : nat) :
  result_sound g s t (c, p, n) -> optimal_cost g s t c ->
  result_shortest g s t (c, p, n).
Proof.
  destruct c as [d |]; simpl; [| auto].
  intros (es & Hw & Hc & Hp) [_ Hmin].
  exists es. repeat split; auto. intros es' Hw'. rewrite Hc. now apply Hmin.
Qed.





(** ** The number of dequeues *)

Lemma a_star_count_bound (g : graph) (start_node end_node : station)
  (stations_data : stations_table) (c : cost) (p : path_data) (n : nat) :
  a_star g start_node end_node stations_data = Some (c, p, n) ->
  (n <= S (edge_count g))%nat.
Proof.
  unfold a_star.
  apply (while_loop_invariant (a_star_step g end_node stations_data)
           (fun st => (a_count st + a_measure g st <= S (edge_count g))%nat)
           (fun r => (snd r <= S (edge_count g))%nat)) with (r := (c, p, n)).
  - intros s s' Hs E. pose proof (a_star_step_count _ _ _ _ _ E).
    pose proof (a_star_step_decreases _ _ _ _ _ E). lia.
  - intros s r Hs E. pose proof (a_star_step_round g end_node stations_data s) as R.
    rewrite E in R. inversion R; subst; simpl; [lia |].
    unfold a_measure in Hs.
    match goal with H : a_queue s = _ |- _ => rewrite H in Hs end.
    simpl in Hs. lia.
  - pose proof (a_star_init_measure g start_node). unfold search_fuel in *.
    simpl a_count. lia.
Qed.

(** X4: neither search dequeues more entries than the graph has edge
    records, plus one for the start entry. *)
Theorem nodes_visited_bounded (g : graph) (start_node end_node : station)
  (stations_data : stations_table) :
  (exists c p n, dijkstra g start_node end_node = Some (c, p, n) /\
                 (n <= S (edge_count g))%nat) /\
  (exists c p n, a_star g start_node end_node stations_data = Some (c, p, n) /\
                 (n <= S (edge_count g))%nat).
Proof.
  split.
  - destruct (dijkstra_returns g start_node end_node) as [[[c p] n] E].
    exists c, p, n. split; [exact E |].
    rewrite dijkstra_as_a_star in E. eapply a_star_count_bound; eauto.
  - destruct (a_star_returns g start_node end_node stations_data) as [[[c p] n] E].
    exists c, p, n. split; [exact E | eapply a_star_count_bound; eauto].
Qed.

(** ** format_path on returned routes *)

Lemma format_path_nonempty (first : station * option line_id) (rest : path_data) :
  format_path (first :: rest)
  = RouteDict (map fst (first :: rest))
      (collapse (map snd (removelast (first :: rest)))).
Proof.
  unfold format_path. rewrite firstn_pred_removelast, format_fold. f_equal.
  assert (H : first :: rest <> []) by discriminate.
  rewrite (app_removelast_last first H) at 2.
  rewrite map_app. simpl. f_equal. f_equal.
  destruct rest; reflexivity.
Qed.

Lemma collapse_after_no_repeat (l : list (option line_id)) :
  forall x, no_repeat (x :: collapse_after x l).
Proof.
  induction l as [| y l IH]; intros x; simpl; [exact I |].
  destruct (line_eqb x y) eqn:E.
  - apply IH.
  - change (x <> y /\ no_repeat (y :: collapse_after y l)).
    split; [| apply IH].
    intros Heq. apply line_eqb_eq in Heq. congruence.
Qed.

Lemma collapse_no_repeat (l : list (option line_id)) : no_repeat (collapse l).
Proof.
  destruct l as [| x l]; [exact I |].
  rewrite collapse_cons. apply collapse_after_no_repeat.
Qed.

Lemma collapse_after_In (l : list (option line_id)) :
  forall x y, In y (collapse_after x l) -> In y l.
Proof.
  induction l as [| z l IH]; intros x y; simpl; [auto |].
  destruct (line_eqb x z).
  - intros H. right. eapply IH; eauto.
  - intros [-> | H]; [now left | right; eapply IH; eauto].
Qed.

Lemma collapse_In (l : list (option line_id)) (y : option line_id) :
  In y (collapse l) <-> In y l.
Proof.
  destruct l as [| x l]; [reflexivity |].
  rewrite collapse_cons. split.
  - intros [-> | H]; [now left | right; eapply collapse_after_In; eauto].
  - revert x. induction l as [| z l IH]; intros x.
    + intros [-> | []]. now left.
    + intros [-> | [-> | H]].
      * now left.
      * simpl. destruct (line_eqb x y) eqn:E.
        -- apply line_eqb_eq in E. subst. now left.
        -- right. now left.
      * simpl. destruct (line_eqb x z) eqn:E.
        -- apply line_eqb_eq in E. subst z. apply IH. now right.
        -- right. apply IH. now right.
Qed.

(** X5: for a non-empty path [format_path] returns as many stations as the
    path has pairs, and a line list in which no two neighbours are equal and
    whose entries are exactly the lines of the pairs before the last. *)
Theorem format_path_lines (first : station * option line_id) (rest : path_data) :
  exists route lines,
    format_path (first :: rest) = RouteDict route lines /\
    List.length route = List.length (first :: rest) /\
    no_repeat lines /\
    (forall l, In l lines <-> In l (map snd (removelast (first :: rest)))).
Proof.
  eexists. eexists. split; [apply format_path_nonempty |].
  split; [apply length_map |]. split; [apply collapse_no_repeat |].
  intros l. apply collapse_In.
Qed.

Lemma route_of_stations (s : station) (es : list edge) :
  map fst (route_of s es) = s :: map to es.
Proof.
  revert s. induction es as [| e es IH]; intros s; [reflexivity |].
  simpl. rewrite IH. reflexivity.
Qed.

Lemma route_of_lines (s : station) (es : list edge) :
  map snd (removelast (route_of s es)) = map (fun e => Some (line e)) es.
Proof.
  revert s. induction es as [| e es IH]; intros s; [reflexivity |].
  change (route_of s (e :: es)) with ((s, Some (line e)) :: route_of (to e) es).
  assert (H : route_of (to e) es <> []) by (destruct es; discriminate).
  assert (Hrl : forall (a : station * option line_id) l,
             l <> [] -> removelast (a :: l) = a :: removelast l)
    by (intros a [| b l'] Hl; [contradiction | reflexivity]).
  rewrite Hrl by assumption. simpl map. rewrite IH. reflexivity.
Qed.

Lemma format_path_route_of (s : station) (es : list edge) :
  format_path (route_of s es)
  = RouteDict (s :: map to es) (collapse (map (fun e => Some (line e)) es)).
Proof.
  assert (H : exists x l, route_of s es = x :: l).
  { destruct es; simpl; eauto. }
  destruct H as (x & l & E).
  rewrite E, format_path_nonempty, <- E, route_of_stations, route_of_lines.
  reflexivity.
Qed.

(** ** main *)

Lemma main_known_stations (prog start_station end_station : string)
  (rest : list string) (data : network) :
  dict_contains (stations data) start_station = true ->
  dict_contains (stations data) end_station = true ->
  ((forall es, ~ walk (edges data) start_station es end_station) /\
   main (prog :: start_station :: end_station :: rest) data = Some NoRouteFound)
  \/
  (exists es d d_nodes a_nodes percent,
     walk (edges data) start_station es end_station /\
     walk_cost es = d /\
     main (prog :: start_station :: end_station :: rest) data
     = Some (Comparison (Fin d)
               (collapse (map (fun e => Some (line e)) es))
               (S (List.length es)) d_nodes a_nodes percent
               (start_station :: map to es))).
Proof.
  intros Hs He. unfold main. rewrite Hs, He. simpl negb. cbv iota.
  destruct (dijkstra_returns (edges data) start_station end_station)
    as [[[cd pd] nd] Ed].
  destruct (a_star_returns (edges data) start_station end_station (stations data))
    as [[[ca pa] na] Ea].
  rewrite Ed, Ea.
  pose proof (dijkstra_result_sound _ _ _ _ Ed) as Sd.
  pose proof (a_star_result_sound _ _ _ _ _ Ea) as Sa.
  destruct cd as [dd |]; simpl in Sd.
  - right. destruct Sd as (esd & Hwd & _ & _).
    destruct ca as [da |]; simpl in Sa.
    + destruct Sa as (es & Hw & Hc & Hp). subst pa.
      rewrite format_path_route_of.
      destruct (improvement nd na) as [pct |] eqn:Ei.
      * exists es, da, nd, na, pct. repeat split; auto.
        simpl List.length. rewrite length_map. reflexivity.
      * exfalso. apply dijkstra_counts in Ed.
        now apply (improvement_defined nd na).
    + destruct Sa as [_ Hno]. exfalso. eapply Hno; eauto.
  - left. destruct Sd as [_ Hno]. split; [exact Hno | reflexivity].
Qed.




(** * Properties of validate_network.py *)

Lemma Rleb_true_iff (a b : R) : Rleb a b = true <-> a <= b.
Proof.
  unfold Rleb. destruct (Rle_dec a b); split; intros; auto; discriminate.
Qed.

Lemma Rleb_false_iff (a b : R) : Rleb a b = false <-> b < a.
Proof.
  unfold Rleb. destruct (Rle_dec a b); split; intros; try discriminate; auto; lra.
Qed.

(** ** find_nearest_station *)

Lemma nearer_fold (lat0 lon0 : R) (stations : stations_table) :
  forall best,
    cost_le (snd (fold_left (nearer lat0 lon0) stations best)) (snd best) /\
    (forall k c, In (k, c) stations ->
       cost_le (snd (fold_left (nearer lat0 lon0) stations best))
         (Fin (haversine lat0 lon0 (lat c) (lon c)))) /\
    (fold_left (nearer lat0 lon0) stations best = best \/
     exists k c, In (k, c) stations /\
                 fold_left (nearer lat0 lon0) stations best
                 = (Some k, Fin (haversine lat0 lon0 (lat c) (lon c)))).
Proof.
  induction stations as [| [k0 c0] stations IH]; intros best.
  - simpl. split; [apply cost_le_refl |]. split; [intros k c [] | now left].
  - cbn [fold_left].
    destruct (IH (nearer lat0 lon0 best (k0, c0))) as (H1 & H2 & H3).
    remember (nearer lat0 lon0 best (k0, c0)) as b1 eqn:Eb1.
    remember (fold_left (nearer lat0 lon0) stations b1) as r eqn:Er.
    assert (Hb1 : cost_le (snd b1) (snd best) /\
                  cost_le (snd b1) (Fin (haversine lat0 lon0 (lat c0) (lon c0))) /\
                  (b1 = best \/
                   b1 = (Some k0, Fin (haversine lat0 lon0 (lat c0) (lon c0))))).
    { rewrite Eb1. unfold nearer.
      destruct (cost_ltb (haversine lat0 lon0 (lat c0) (lon c0)) (snd best)) eqn:E.
      - simpl. split; [now apply cost_ltb_true_le |].
        split; [lra | now right].
      - split; [apply cost_le_refl |].
        split; [now apply cost_ltb_false_le | now left]. }
    destruct Hb1 as (B1 & B2 & B3).
    split; [eapply cost_le_trans; eauto |]. split.
    + intros k c [Heq | Hin].
      * inversion Heq; subst k c. eapply cost_le_trans; eauto.
      * exact (H2 k c Hin).
    + destruct H3 as [Hr | (k & c & Hin & Hr)].
      * destruct B3 as [Hb | Hb]; [left; congruence |].
        right. exists k0, c0. split; [now left | congruence].
      * right. exists k, c. split; [now right | assumption].
Qed.

(** X8: the distance [find_nearest_station] returns is no more than the
    distance to any station of the table; a name is returned only for a
    station of the table at that distance and within the threshold; and no
    name is returned only when every station is beyond the threshold. *)
Theorem find_nearest_station_nearest (lat0 lon0 : R) (stations : stations_table)
  (threshold_km : R) :
  let r := find_nearest_station lat0 lon0 stations threshold_km in
  (forall k c, In (k, c) stations ->
     cost_le (snd r) (Fin (haversine lat0 lon0 (lat c) (lon c)))) /\
  (forall k, fst r = Some k ->
     exists c, In (k, c) stations /\
               snd r = Fin (haversine lat0 lon0 (lat c) (lon c)) /\
               haversine lat0 lon0 (lat c) (lon c) <= threshold_km) /\
  (fst r = None ->
     forall k c, In (k, c) stations ->
       threshold_km < haversine lat0 lon0 (lat c) (lon c)) /\
  (stations = [] -> r = (None, Inf)).
Proof.
  unfold find_nearest_station.
  destruct (nearer_fold lat0 lon0 stations (None, Inf)) as (_ & H2 & H3).
  set (best := fold_left (nearer lat0 lon0) stations (None, Inf)) in *.
  destruct (cost_leb (snd best) threshold_km) eqn:E; simpl.
  - split; [exact H2 |]. split; [| split].
    + intros k Hk. destruct H3 as [Hb | (k' & c & Hin & Hb)].
      * rewrite Hb in Hk. discriminate.
      * rewrite Hb in Hk, E |- *. simpl in *. inversion Hk; subst.
        exists c. repeat split; auto. now apply Rleb_true_iff.
    + intros Hn. destruct H3 as [Hb | (k' & c & Hin & Hb)].
      * rewrite Hb in E. discriminate.
      * rewrite Hb in Hn. discriminate.
    + intros ->. reflexivity.
  - split; [exact H2 |]. split; [discriminate |]. split.
    + intros _ k c Hin. specialize (H2 k c Hin).
      destruct (snd best) as [d |]; simpl in *; [| contradiction].
      apply Rleb_false_iff in E. lra.
    + intros ->. reflexivity.
Qed.

(** ** The two checks *)

Lemma reverse_found_spec (edges : graph) (u : station) (e : edge) :
  reverse_found edges u e = true <->
  exists z, In z (edges_of edges (to e)) /\ to z = u /\ line z = line e.
Proof.
  unfold reverse_found, edges_of, dict_get_default.
  destruct (dict_get edges (to e)) as [zs |].
  - rewrite existsb_exists. split.
    + intros (z & Hin & Hz). apply andb_true_iff in Hz. destruct Hz as [H1 H2].
      apply String.eqb_eq in H1, H2. eauto.
    + intros (z & Hin & H1 & H2). exists z. split; [assumption |].
      apply andb_true_iff. split; apply String.eqb_eq; assumption.
  - split; [discriminate | intros (z & [] & _)].
Qed.

Lemma check_fold {A : Type} (test : A -> bool) (l : list A) :
  forall ok,
    fold_left (fun ok x => if test x then ok else false) l ok = true <->
    ok = true /\ forall x, In x l -> test x = true.
Proof.
  induction l as [| x l IH]; intros ok; simpl.
  - split; [intros ->; split; [reflexivity | intros x []] | intros [-> _]; reflexivity].
  - rewrite IH. destruct (test x) eqn:E.
    + split.
      * intros [-> H]. split; [reflexivity |]. intros y [<- | Hy]; auto.
      * intros [-> H]. split; [reflexivity |]. intros y Hy. apply H. now right.
    + split; [intros [Hf _]; discriminate |].
      intros [_ H]. specialize (H x (or_introl eq_refl)). congruence.
Qed.

Lemma bidirectional_check_spec (edges : graph) :
  bidirectional_check edges true = true <-> edges_reversible edges.
Proof.
  unfold bidirectional_check, edges_reversible.
  assert (H : forall (l : graph) ok,
             fold_left
               (fun ok (item : station * list edge) =>
                  fold_left
                    (fun ok e => if reverse_found edges (fst item) e then ok else false)
                    (snd item) ok) l ok = true <->
             ok = true /\
             forall u es e, In (u, es) l -> In e es -> reverse_found edges u e = true).
  { induction l as [| [u0 es0] l IH]; intros ok; simpl.
    - split; [intros ->; split; [reflexivity | intros ? ? ? []] |
              intros [-> _]; reflexivity].
    - rewrite IH, (check_fold (reverse_found edges u0) es0). split.
      + intros [[-> H0] H]. split; [reflexivity |].
        intros u es e [Heq | Hin] He; [inversion Heq; subst; auto | eauto].
      + intros [-> H]. split; [split; [reflexivity |] |].
        * intros e He. apply (H u0 es0 e); [now left | assumption].
        * intros u es e Hin He. apply (H u es e); [now right | assumption]. }
  rewrite H. split.
  - intros [_ Hall] u es e Hin He. apply reverse_found_spec. eauto.
  - intros Hall. split; [reflexivity |].
    intros u es e Hin He. apply reverse_found_spec. eauto.
Qed.

Lemma circular_check_spec (data : frontend_network) (circular_lines : list string)
  (threshold_km : R) (ok : bool) :
  circular_check data circular_lines threshold_km ok = true <->
  ok = true /\
  forall l, In l circular_lines -> circular_line_ok data threshold_km l = true.
Proof. unfold circular_check. apply check_fold. Qed.

Lemma validate_network_zero_iff (circular_lines : list string) (threshold_km : R)
  (data : frontend_network) :
  validate_network circular_lines threshold_km data = 0%Z <->
  edges_reversible (f_edges data) /\
  forall l, In l circular_lines -> circular_line_ok data threshold_km l = true.
Proof.
  unfold validate_network.
  destruct (circular_check data circular_lines threshold_km
              (bidirectional_check (f_edges data) true)) eqn:E.
  - apply circular_check_spec in E. destruct E as [Hb Hc].
    apply bidirectional_check_spec in Hb. split; [auto | reflexivity].
  - split; [discriminate |]. intros [Hb Hc]. exfalso.
    apply bidirectional_check_spec in Hb.
    assert (H : circular_check data circular_lines threshold_km
                  (bidirectional_check (f_edges data) true) = true)
      by (apply circular_check_spec; auto).
    congruence.
Qed.

(** X9: [validate_network] returns 0 or 2, and 0 exactly when every listed
    edge has an edge back on the same line and every configured circular line
    is missing from the lines object or has a path that closes; an edge
    distance that differs from the distance of the edge back never fails it. *)
Theorem validate_network_result (circular_lines : list string) (threshold_km : R)
  (data : frontend_network) :
  (validate_network circular_lines threshold_km data = 0%Z \/
   validate_network circular_lines threshold_km data = 2%Z) /\
  (validate_network circular_lines threshold_km data = 0%Z <->
   edges_reversible (f_edges data) /\
   forall l, In l circular_lines -> circular_line_ok data threshold_km l = true).
Proof.
  split; [| apply validate_network_zero_iff].
  unfold validate_network.
  destruct (circular_check data circular_lines threshold_km
              (bidirectional_check (f_edges data) true)); auto.
Qed.

(** ** A validated network has routes both ways *)

Lemma walk_reverse (g : graph) (u v : station) (es : list edge) :
  edges_reversible g -> walk g u es v -> exists es', walk g v es' u.
Proof.
  intros Hrev. induction 1 as [u | u e es v He Hw IH].
  - exists []. constructor.
  - destruct IH as (es' & Hw').
    assert (Hin : exists l, In (u, l) g /\ In e l).
    { unfold edges_of, dict_get_default in He.
      destruct (dict_get g u) as [l |] eqn:E; [| contradiction].
      exists l. split; [now apply dict_get_In | assumption]. }
    destruct Hin as (l & Hl & Hel).
    destruct (Hrev u l e Hl Hel) as (z & Hz & Hto & _).
    exists (es' ++ [z]). rewrite <- Hto. now apply (walk_snoc g v (to e)).
Qed.



(** * Properties of generate_network_json.py *)

(** ** add_edge *)

Lemma key_eqb_eq (a b : edge_key) : key_eqb a b = true <-> a = b.
Proof.
  destruct a as [[f1 t1] l1], b as [[f2 t2] l2]. unfold key_eqb.
  rewrite !andb_true_iff, !String.eqb_eq. split.
  - intros [[-> ->] ->]. reflexivity.
  - intros H. inversion H. auto.
Qed.

Lemma key_in_In (k : edge_key) (processed : list edge_key) :
  key_in k processed = true <-> In k processed.
Proof.
  unfold key_in. rewrite existsb_exists. split.
  - intros (x & Hin & Hx). apply key_eqb_eq in Hx. now subst.
  - intros Hin. exists k. split; [assumption | now apply key_eqb_eq].
Qed.

Lemma key_in_cons (k k0 : edge_key) (processed : list edge_key) :
  key_in k (k0 :: processed) = true <-> k = k0 \/ key_in k processed = true.
Proof.
  rewrite !key_in_In. simpl. split; intros [H | H]; auto.
Qed.

Lemma edges_of_setdefault_same (g : graph) (u : station) (e : edge) :
  edges_of (setdefault_append g u e) u = edges_of g u ++ [e].
Proof.
  unfold edges_of, setdefault_append, dict_get_default.
  destruct (dict_get g u) as [es |]; rewrite dict_get_set_same; reflexivity.
Qed.

Lemma edges_of_setdefault_other (g : graph) (u v : station) (e : edge) :
  u <> v -> edges_of (setdefault_append g u e) v = edges_of g v.
Proof.
  intros Hne. unfold edges_of, setdefault_append, dict_get_default.
  destruct (dict_get g u) as [es |]; rewrite dict_get_set_other by assumption;
    reflexivity.
Qed.

Lemma edges_of_setdefault_In (g : graph) (u v : station) (e x : edge) :
  In x (edges_of (setdefault_append g u e) v) <->
  In x (edges_of g v) \/ (u = v /\ x = e).
Proof.
  destruct (string_dec u v) as [<- | Hne].
  - rewrite edges_of_setdefault_same, in_app_iff. simpl. intuition.
  - rewrite edges_of_setdefault_other by assumption. intuition.
Qed.

Lemma dict_set_keys {V : Type} (d : dict V) (k : string) (v : V) :
  map fst (dict_set d k v)
  = if dict_contains d k then map fst d else map fst d ++ [k].
Proof.
  unfold dict_contains. induction d as [| [k' v'] d IH]; simpl; [reflexivity |].
  destruct (String.eqb k' k) eqn:E; simpl; [reflexivity |].
  rewrite IH. destruct (existsb _ d); reflexivity.
Qed.

Lemma dict_contains_In {V : Type} (d : dict V) (k : string) :
  dict_contains d k = true <-> In k (map fst d).
Proof.
  unfold dict_contains. induction d as [| [k' v'] d IH]; simpl.
  - split; [discriminate | contradiction].
  - rewrite orb_true_iff, IH, String.eqb_eq. reflexivity.
Qed.

Lemma NoDup_snoc {A : Type} (l : list A) (x : A) :
  NoDup l -> ~ In x l -> NoDup (l ++ [x]).
Proof.
  induction l as [| y l IH]; intros Hnd Hx; simpl.
  - constructor; [intros [] | constructor].
  - inversion Hnd; subst. constructor.
    + rewrite in_app_iff. simpl. intros [H | [H | []]]; [contradiction |].
      apply Hx. now left.
    + apply IH; [assumption |]. intros H. apply Hx. now right.
Qed.

Lemma setdefault_keys_NoDup (g : graph) (u : station) (e : edge) :
  NoDup (map fst g) -> NoDup (map fst (setdefault_append g u e)).
Proof.
  intros Hnd. unfold setdefault_append.
  assert (H : forall l, NoDup (map fst (dict_set g u l))).
  { intros l. rewrite dict_set_keys.
    destruct (dict_contains g u) eqn:E; [assumption |].
    apply NoDup_snoc; [assumption |].
    intros Hin. apply dict_contains_In in Hin. congruence. }
  destruct (dict_get g u); apply H.
Qed.

Lemma dict_get_of_In {V : Type} (d : dict V) (k : string) (v : V) :
  NoDup (map fst d) -> In (k, v) d -> dict_get d k = Some v.
Proof.
  induction d as [| [k' v'] d IH]; simpl; [intros _ [] |].
  intros Hnd [Heq | Hin].
  - inversion Heq; subst. rewrite String.eqb_refl. reflexivity.
  - inversion Hnd; subst. destruct (String.eqb k' k) eqn:E.
    + apply String.eqb_eq in E. subst k'. exfalso.
      match goal with H : ~ In _ _ |- _ => apply H end.
      apply in_map_iff. exists (k, v). auto.
    + now apply IH.
Qed.

Lemma builder_ok_empty : builder_ok (mkBuilder [] []).
Proof.
  constructor; simpl.
  - intros u v l. split; [discriminate | intros (e & [] & _)].
  - intros u. constructor.
  - constructor.
Qed.

(** Adding an edge whose key is not yet processed. *)
Lemma push_ok (st : builder) (u v : station) (d : R) (l : line_id) :
  builder_ok st ->
  key_in (u, v, l) (processed_edges st) = false ->
  builder_ok (mkBuilder (setdefault_append (b_edges st) u (mkEdge v d l))
                ((u, v, l) :: processed_edges st)).
Proof.
  intros [Hp Hu Hk] Hnew. constructor; cbn [b_edges processed_edges].
  - intros a b m. rewrite key_in_cons. split.
    + intros [Heq | Hold].
      * inversion Heq; subst. exists (mkEdge v d l).
        split; [apply edges_of_setdefault_In; right; auto | auto].
      * apply Hp in Hold. destruct Hold as (e & He & H1 & H2).
        exists e. split; [apply edges_of_setdefault_In; now left | auto].
    + intros (e & He & H1 & H2). apply edges_of_setdefault_In in He.
      destruct He as [He | [<- ->]].
      * right. apply Hp. eauto.
      * left. simpl in H1, H2. subst. reflexivity.
  - intros w. destruct (string_dec u w) as [<- | Hne].
    + rewrite edges_of_setdefault_same, map_app. simpl.
      apply NoDup_snoc; [apply Hu |].
      intros Hin. apply in_map_iff in Hin. destruct Hin as (e & He & Hin).
      inversion He; subst.
      assert (H : key_in (u, to e, line e) (processed_edges st) = true)
        by (apply Hp; eauto).
      congruence.
    + rewrite edges_of_setdefault_other by assumption. apply Hu.
  - now apply setdefault_keys_NoDup.
Qed.

Lemma add_edge_ok (round2 : R -> R) (flag : bool) (st : builder)
  (frm to_ : station) (d : R) (l : line_id) :
  builder_ok st -> builder_ok (add_edge round2 flag st frm to_ d l).
Proof.
  intros Hok. unfold add_edge.
  destruct (key_in (frm, to_, l) (processed_edges st)) eqn:E1; [assumption |].
  pose proof (push_ok st frm to_ (round2 d) l Hok E1) as H1.
  destruct flag; [| exact H1].
  destruct (key_in (to_, frm, l) ((frm, to_, l) :: processed_edges st)) eqn:E2;
    simpl negb; cbv iota; [exact H1 |].
  exact (push_ok _ to_ frm (round2 d) l H1 E2).
Qed.

Lemma add_edges_fold_ok (round2 : R -> R) (flag : bool)
  (calls : list add_edge_call) :
  forall st, builder_ok st ->
    builder_ok
      (fold_left
         (fun st (c : add_edge_call) =>
            let '(frm, to_, distance, line) := c in
            add_edge round2 flag st frm to_ distance line) calls st).
Proof.
  induction calls as [| [[[f t] d] l] calls IH]; intros st Hok; simpl;
    [assumption |].
  apply IH. now apply add_edge_ok.
Qed.

(** X11: after any run of [add_edge] calls, with or without reverse edges,
    the processed keys are exactly the edges of the graph, no station has two
    edges to the same station on the same line, and no station is listed
    twice. *)
Theorem add_edge_keeps_edges_unique (round2 : R -> R) (flag : bool)
  (calls : list add_edge_call) :
  builder_ok (add_edges round2 flag calls).
Proof. apply add_edges_fold_ok. apply builder_ok_empty. Qed.

Lemma add_edge_processed (round2 : R -> R) (flag : bool) (st : builder)
  (frm to_ : station) (d : R) (l : line_id) :
  key_in (frm, to_, l) (processed_edges (add_edge round2 flag st frm to_ d l))
  = true.
Proof.
  unfold add_edge.
  destruct (key_in (frm, to_, l) (processed_edges st)) eqn:E1; [assumption |].
  assert (H : forall P, key_in (frm, to_, l) ((frm, to_, l) :: P) = true)
    by (intros P; apply key_in_cons; now left).
  destruct flag; [| apply H].
  destruct (negb (key_in (to_, frm, l) ((frm, to_, l) :: processed_edges st)));
    cbn [processed_edges]; [| apply H].
  apply key_in_cons. right. apply H.
Qed.

Lemma add_edge_skips (round2 : R -> R) (flag : bool) (st : builder)
  (frm to_ : station) (d : R) (l : line_id) :
  key_in (frm, to_, l) (processed_edges st) = true ->
  add_edge round2 flag st frm to_ d l = st.
Proof. intros H. unfold add_edge. rewrite H. reflexivity. Qed.

(** ** Reverse edges *)

Lemma add_edge_mirrored (round2 : R -> R) (st : builder)
  (frm to_ : station) (d : R) (l : line_id) :
  builder_ok st -> edges_mirrored (b_edges st) ->
  edges_mirrored (b_edges (add_edge round2 true st frm to_ d l)).
Proof.
  intros Hok Hm. unfold add_edge.
  destruct (key_in (frm, to_, l) (processed_edges st)) eqn:E1; [assumption |].
  assert (Hold : forall g' : graph,
             (forall w x, In x (edges_of (b_edges st) w) -> In x (edges_of g' w)) ->
             forall u e, In e (edges_of (b_edges st) u) ->
               exists z, In z (edges_of g' (to e)) /\
                         to z = u /\ line z = line e /\ distance z = distance e).
  { intros g' Hmono u e He. destruct (Hm u e He) as (z & Hz & Hrest).
    exists z. split; [now apply Hmono | assumption]. }
  destruct (key_in (to_, frm, l) ((frm, to_, l) :: processed_edges st)) eqn:E2;
    simpl negb; cbv iota; simpl b_edges.
  - apply key_in_cons in E2. destruct E2 as [Heq | Hrev].
    + inversion Heq; subst to_.
      intros u e He. apply edges_of_setdefault_In in He.
      destruct He as [He | [<- ->]].
      * apply (Hold _ (fun w x H => proj2 (edges_of_setdefault_In _ _ _ _ _)
                                      (or_introl H)) u e He).
      * exists (mkEdge frm (round2 d) l). simpl.
        split; [apply edges_of_setdefault_In; right; auto | auto].
    + exfalso. apply (ok_processed st Hok) in Hrev.
      destruct Hrev as (e0 & He0 & Hto & Hl).
      destruct (Hm to_ e0 He0) as (z & Hz & Hzt & Hzl & _).
      rewrite Hto in Hz.
      assert (H : key_in (frm, to_, l) (processed_edges st) = true).
      { apply (ok_processed st Hok). exists z. repeat split; auto. congruence. }
      congruence.
  - intros u e He. apply edges_of_setdefault_In in He.
    destruct He as [He | [<- ->]].
    + apply edges_of_setdefault_In in He. destruct He as [He | [<- ->]].
      * apply (Hold _ (fun w x H =>
                         proj2 (edges_of_setdefault_In _ _ _ _ _)
                           (or_introl (proj2 (edges_of_setdefault_In _ _ _ _ _)
                                         (or_introl H)))) u e He).
      * exists (mkEdge frm (round2 d) l). simpl.
        split; [apply edges_of_setdefault_In; right; auto | auto].
    + exists (mkEdge to_ (round2 d) l). simpl. split; [| auto].
      apply edges_of_setdefault_In. left.
      apply edges_of_setdefault_In. right. auto.
Qed.

Lemma add_edges_fold_mirrored (round2 : R -> R) (calls : list add_edge_call) :
  forall st, builder_ok st -> edges_mirrored (b_edges st) ->
    edges_mirrored
      (b_edges
         (fold_left
            (fun st (c : add_edge_call) =>
               let '(frm, to_, distance, line) := c in
               add_edge round2 true st frm to_ distance line) calls st)).
Proof.
  induction calls as [| [[[f t] d] l] calls IH]; intros st Hok Hm; simpl;
    [assumption |].
  apply IH; [now apply add_edge_ok | now apply add_edge_mirrored].
Qed.

Lemma add_edges_mirrored (round2 : R -> R) (calls : list add_edge_call) :
  edges_mirrored (b_edges (add_edges round2 true calls)).
Proof.
  apply add_edges_fold_mirrored; [apply builder_ok_empty |].
  intros u e [].
Qed.

Lemma mirrored_reversible (g : graph) :
  NoDup (map fst g) -> edges_mirrored g -> edges_reversible g.
Proof.
  intros Hnd Hm u es e Hin He.
  assert (Hes : edges_of g u = es).
  { unfold edges_of, dict_get_default. now rewrite (dict_get_of_In g u es Hnd Hin). }
  rewrite <- Hes in He. destruct (Hm u e He) as (z & Hz & H1 & H2 & _). eauto.
Qed.

(** X12: with reverse edges switched on, after any run of [add_edge] calls
    every edge has an edge back on the same line with the same distance, so
    the graph passes the bidirectional check of [validate_network], which
    returns 0 when no circular line is configured. *)
Theorem add_edge_graph_validates (round2 : R -> R) (calls : list add_edge_call)
  (stations : stations_table) (lines : dict line_data) (threshold_km : R) :
  let g := b_edges (add_edges round2 true calls) in
  edges_mirrored g /\
  bidirectional_check g true = true /\
  validate_network [] threshold_km (mkFrontendNetwork stations g lines) = 0%Z.
Proof.
  intros g.
  assert (Hm : edges_mirrored g) by apply add_edges_mirrored.
  assert (Hr : edges_reversible g).
  { apply mirrored_reversible; [| assumption].
    apply (ok_keys _ (add_edges_fold_ok round2 true calls _ builder_ok_empty)). }
  split; [assumption |]. split; [now apply bidirectional_check_spec |].
  apply validate_network_zero_iff. split; [assumption | intros l []].
Qed.

(** X13: a call of [add_edge] for a station pair and line that was added
    before changes nothing, whatever its distance; with reverse edges switched
    on from the start, neither does a call for the opposite direction. *)
Theorem add_edge_first_call_wins (round2 : R -> R) (frm to_ : station)
  (d d' : R) (l : line_id) :
  (forall flag st,
     add_edge round2 flag (add_edge round2 flag st frm to_ d l) frm to_ d' l
     = add_edge round2 flag st frm to_ d l) /\
  (forall calls,
     add_edge round2 true
       (add_edge round2 true (add_edges round2 true calls) frm to_ d l)
       to_ frm d' l
     = add_edge round2 true (add_edges round2 true calls) frm to_ d l).
Proof.
  split.
  - intros flag st. apply add_edge_skips. apply add_edge_processed.
  - intros calls. apply add_edge_skips.
    set (st := add_edges round2 true calls).
    assert (Hok : builder_ok st)
      by apply (add_edges_fold_ok round2 true calls _ builder_ok_empty).
    assert (Hm : edges_mirrored (b_edges st)) by apply add_edges_mirrored.
    set (st' := add_edge round2 true st frm to_ d l).
    assert (Hok' : builder_ok st') by now apply add_edge_ok.
    assert (Hm' : edges_mirrored (b_edges st')) by now apply add_edge_mirrored.
    pose proof (add_edge_processed round2 true st frm to_ d l) as Hkey.
    fold st' in Hkey. apply (ok_processed st' Hok') in Hkey.
    destruct Hkey as (e & He & Hto & Hl).
    destruct (Hm' frm e He) as (z & Hz & Hzt & Hzl & _).
    apply (ok_processed st' Hok'). exists z. rewrite Hto in Hz.
    repeat split; auto. congruence.
Qed.

(** * Properties of generate_frontend_data.py *)

(** ** nearest_index *)

Lemma nearer_index_fold (lat0 lon0 : R) (pts : list point) :
  forall i0 b bd,
  exists bi bd',
    fold_left (nearer_index lat0 lon0) pts (i0, b, bd)
    = ((i0 + List.length pts)%nat, bi, bd') /\
    cost_le bd' bd /\
    (forall pt, In pt pts -> cost_le bd' (Fin (haversine lat0 lon0 (fst pt) (snd pt)))) /\
    ((bi = b /\ bd' = bd) \/
     exists j pt,
       nth_error pts j = Some pt /\ bi = Some (i0 + j)%nat /\
       bd' = Fin (haversine lat0 lon0 (fst pt) (snd pt)) /\
       cost_ltb (haversine lat0 lon0 (fst pt) (snd pt)) bd = true /\
       forall j' pt', (j' < j)%nat -> nth_error pts j' = Some pt' ->
         haversine lat0 lon0 (fst pt) (snd pt)
         < haversine lat0 lon0 (fst pt') (snd pt')).
Proof.
  induction pts as [| p pts IH]; intros i0 b bd.
  - exists b, bd. simpl. rewrite Nat.add_0_r.
    split; [reflexivity |]. split; [apply cost_le_refl |].
    split; [intros pt [] | now left].
  - cbn [fold_left]. unfold nearer_index at 2.
    set (hp := haversine lat0 lon0 (fst p) (snd p)).
    destruct (cost_ltb hp bd) eqn:E.
    + destruct (IH (S i0) (Some i0) (Fin hp)) as (bi & bd' & Hf & H1 & H2 & H3).
      exists bi, bd'. rewrite Hf. simpl List.length.
      split; [f_equal; f_equal; lia |].
      assert (Hbd : cost_le bd' bd)
        by (eapply cost_le_trans; [exact H1 | now apply cost_ltb_true_le]).
      split; [assumption |]. split.
      * intros pt [<- | Hin]; [exact H1 | now apply H2].
      * right. destruct H3 as [[-> ->] | (j & pt & Hn & -> & -> & Hlt & Hfirst)].
        -- exists 0%nat, p. split; [reflexivity |]. split; [f_equal; lia |].
           split; [reflexivity |]. split; [exact E |].
           intros j' pt' Hj'. lia.
        -- exists (S j), pt. simpl in Hlt. apply Rltb_true_iff in Hlt.
           split; [exact Hn |]. split; [f_equal; lia |].
           split; [reflexivity |]. split.
           ++ destruct bd as [d0 |]; simpl in *; [| reflexivity].
              apply Rltb_true_iff in E. apply Rltb_true_iff. fold hp in Hlt. lra.
           ++ intros [| j'] pt' Hj' Hn'; simpl in Hn'.
              ** inversion Hn'; subst. exact Hlt.
              ** apply (Hfirst j' pt'); [lia | assumption].
    + destruct (IH (S i0) b bd) as (bi & bd' & Hf & H1 & H2 & H3).
      exists bi, bd'. rewrite Hf. simpl List.length.
      split; [f_equal; f_equal; lia |]. split; [assumption |]. split.
      * intros pt [<- | Hin]; [| now apply H2].
        eapply cost_le_trans; [exact H1 | now apply cost_ltb_false_le].
      * destruct H3 as [[-> ->] | (j & pt & Hn & -> & -> & Hlt & Hfirst)];
          [now left |].
        right. exists (S j), pt.
        split; [exact Hn |]. split; [f_equal; lia |].
        split; [reflexivity |]. split; [exact Hlt |].
        intros [| j'] pt' Hj' Hn'; simpl in Hn'.
        -- inversion Hn'; subst.
           apply cost_ltb_false_le in E. fold hp.
           destruct bd as [d0 |]; simpl in *; [| contradiction].
           apply Rltb_true_iff in Hlt. lra.
        -- apply (Hfirst j' pt'); [lia | assumption].
Qed.

(** X14: on an empty shape [nearest_index] returns no index; otherwise it
    returns the first index whose point is nearest, with its distance. *)
Theorem nearest_index_first_nearest (lat0 lon0 : R) :
  nearest_index [] lat0 lon0 = (None, Inf) /\
  forall first rest,
  exists i pt,
    nearest_index (first :: rest) lat0 lon0
    = (Some i, Fin (haversine lat0 lon0 (fst pt) (snd pt))) /\
    nth_error (first :: rest) i = Some pt /\
    (forall pt', In pt' (first :: rest) ->
       haversine lat0 lon0 (fst pt) (snd pt)
       <= haversine lat0 lon0 (fst pt') (snd pt')) /\
    (forall j pt', (j < i)%nat -> nth_error (first :: rest) j = Some pt' ->
       haversine lat0 lon0 (fst pt) (snd pt)
       < haversine lat0 lon0 (fst pt') (snd pt')).
Proof.
  split; [reflexivity |]. intros first rest. unfold nearest_index.
  destruct (nearer_index_fold lat0 lon0 (first :: rest) 0%nat None Inf)
    as (bi & bd' & Hf & _ & H2 & H3).
  rewrite Hf.
  destruct H3 as [[-> ->] | (j & pt & Hn & -> & -> & _ & Hfirst)].
  - exfalso. apply (H2 first). now left.
  - exists j, pt. simpl Nat.add. split; [reflexivity |]. split; [exact Hn |].
    split; [| exact Hfirst].
    intros pt' Hin. exact (H2 pt' Hin).
Qed.

(** ** The shape segment of an edge *)

Lemma nth_error_slice {A : Type} (l : list A) (a b k : nat) :
  (k < b - a)%nat -> nth_error (slice l a b) k = nth_error l (a + k).
Proof.
  intros Hk. unfold slice. rewrite nth_error_firstn.
  apply Nat.ltb_lt in Hk. rewrite Hk. apply nth_error_skipn.
Qed.

Lemma length_slice {A : Type} (l : list A) (a b : nat) :
  (b <= List.length l)%nat -> List.length (slice l a b) = (b - a)%nat.
Proof.
  intros Hb. unfold slice. rewrite length_firstn, length_skipn. lia.
Qed.

(** X15: between two indices of the shape the segment attached to an edge
    runs from the point at the first index to the point at the second, one
    index at a time, backwards when the second index is the smaller. *)
Theorem shape_segment_runs (shape_pts : list point) (idx_from idx_to : nat) :
  (idx_from < List.length shape_pts)%nat ->
  (idx_to < List.length shape_pts)%nat ->
  List.length (shape_segment shape_pts idx_from idx_to)
  = S (Nat.max idx_from idx_to - Nat.min idx_from idx_to) /\
  forall k, (k <= Nat.max idx_from idx_to - Nat.min idx_from idx_to)%nat ->
    nth_error (shape_segment shape_pts idx_from idx_to) k
    = nth_error shape_pts
        (if (idx_from <=? idx_to)%nat then idx_from + k else idx_from - k)%nat.
Proof.
  intros Hf Ht. unfold shape_segment.
  destruct (idx_from <=? idx_to)%nat eqn:E.
  - apply Nat.leb_le in E. split.
    + rewrite length_slice by lia. lia.
    + intros k Hk. apply nth_error_slice. lia.
  - apply Nat.leb_gt in E.
    assert (Hlen : List.length (slice shape_pts idx_to (idx_from + 1))
                   = (idx_from + 1 - idx_to)%nat) by (apply length_slice; lia).
    split.
    + rewrite length_rev, Hlen. lia.
    + intros k Hk. rewrite nth_error_rev, Hlen.
      assert (Hlt : (k <? idx_from + 1 - idx_to)%nat = true)
        by (apply Nat.ltb_lt; lia).
      rewrite Hlt, nth_error_slice by lia. f_equal. lia.
Qed.

Lemma shape_segment_runs_witness :
  (2 < List.length [(0, 0); (0, 1); (0, 2); (0, 3)])%nat /\
  (0 < List.length [(0, 0); (0, 1); (0, 2); (0, 3)])%nat /\
  List.length (shape_segment [(0, 0); (0, 1); (0, 2); (0, 3)] 2 0) = 3%nat /\
  forall k, (k <= 2)%nat ->
    nth_error (shape_segment [(0, 0); (0, 1); (0, 2); (0, 3)] 2 0) k
    = nth_error [(0, 0); (0, 1); (0, 2); (0, 3)] (2 - k).
Proof.
  assert (H1 : (2 < List.length [(0, 0); (0, 1); (0, 2); (0, 3)])%nat)
    by (simpl; lia).
  assert (H2 : (0 < List.length [(0, 0); (0, 1); (0, 2); (0, 3)])%nat)
    by (simpl; lia).
  split; [exact H1 |]. split; [exact H2 |].
  exact (shape_segment_runs [(0, 0); (0, 1); (0, 2); (0, 3)] 2 0 H1 H2).
Defined.

(** ** Closed paths *)

Lemma point_eqb_refl (p : point) : point_eqb p p = true.
Proof.
  unfold point_eqb. rewrite !Reqb_true by reflexivity. reflexivity.
Qed.

Lemma stored_path_closed (s : list point) :
  is_shape_circular s = true ->
  exists first rest,
    stored_path s = first :: rest /\ rest <> [] /\
    point_eqb first (last rest first) = true.
Proof.
  intros Hc. unfold stored_path. rewrite Hc.
  destruct s as [| first rest]; [discriminate |].
  assert (Hrest : rest <> []).
  { intros ->. simpl in Hc. discriminate. }
  destruct (point_eqb first (last rest first)) eqn:E; simpl negb; cbv iota.
  - exists first, rest. auto.
  - exists first, (rest ++ [first]). split; [reflexivity |].
    split; [destruct rest; discriminate |].
    rewrite last_last. apply point_eqb_refl.
Qed.

Lemma path_closes_closed (stations : stations_table) (edges : graph)
  (threshold_km : R) (line_name : string) (first : point) (rest : list point) :
  rest <> [] -> point_eqb first (last rest first) = true ->
  path_closes stations edges threshold_km line_name (first :: rest) = true.
Proof.
  intros Hrest Heq. unfold path_closes.
  destruct rest as [| p rest]; [contradiction |].
  change (List.length (first :: p :: rest) <? 2)%nat with false.
  cbv iota. rewrite Heq. reflexivity.
Qed.

(** X16: the path stored for a shape that is not circular is the shape; the
    path stored for a circular shape has at least two points and ends where
    it starts, so a line with such a path passes the circular check of
    [validate_network]. *)
Theorem stored_path_validates (s : list point) :
  (is_shape_circular s = false -> stored_path s = s) /\
  (is_shape_circular s = true ->
   (exists first rest,
      stored_path s = first :: rest /\ rest <> [] /\ last rest first = first) /\
   forall data threshold_km line_name d ps,
     dict_get (f_lines data) line_name = Some d ->
     paths d = Some ps ->
     In (stored_path s) ps ->
     circular_line_ok data threshold_km line_name = true).
Proof.
  split.
  - intros H. unfold stored_path. rewrite H. reflexivity.
  - intros Hc. destruct (stored_path_closed s Hc) as (first & rest & Hs & Hr & He).
    split.
    + exists first, rest. repeat split; auto.
      unfold point_eqb in He. apply andb_true_iff in He. destruct He as [H1 H2].
      apply Reqb_true_iff in H1, H2.
      destruct first, (last rest (r, r0)). simpl in *. congruence.
    + intros data threshold_km line_name d ps Hd Hps Hin.
      unfold circular_line_ok. rewrite Hd.
      assert (Hm : line_missing (Some d) = false).
      { simpl. rewrite Hps. destruct (color d); reflexivity. }
      rewrite Hm, Hps. apply existsb_exists.
      exists (stored_path s). split; [assumption |].
      rewrite Hs. now apply path_closes_closed.
Qed.

Lemma ring_shape_circular :
  is_shape_circular [(0, 0); (0, 1); (0, 0)] = true.
Proof.
  unfold is_shape_circular. simpl. rewrite haversine_same.
  apply Rltb_true. lra.
Qed.

Lemma stored_path_validates_witness :
  is_shape_circular [(0, 0); (0, 1); (0, 0)] = true /\
  (exists first rest,
     stored_path [(0, 0); (0, 1); (0, 0)] = first :: rest /\
     rest <> [] /\ last rest first = first) /\
  forall data threshold_km line_name d ps,
    dict_get (f_lines data) line_name = Some d ->
    paths d = Some ps ->
    In (stored_path [(0, 0); (0, 1); (0, 0)]) ps ->
    circular_line_ok data threshold_km line_name = true.
Proof.
  split; [exact ring_shape_circular |].
  exact (proj2 (stored_path_validates [(0, 0); (0, 1); (0, 0)])
           ring_shape_circular).
Defined.

(** ** get_line_name *)

Lemma contains_underscore_cons (ch : ascii) (c : string) :
  contains "_" (String ch c) = Ascii.eqb ch "_"%char || contains "_" c.
Proof.
  change (contains "_" (String ch c))
    with (String.prefix "_" (String ch c) || contains "_" c).
  f_equal. cbn [String.prefix].
  destruct (ascii_dec "_"%char ch) as [<- | Hne].
  - destruct c; reflexivity.
  - destruct (Ascii.eqb ch "_"%char) eqn:E; [| reflexivity].
    apply Ascii.eqb_eq in E. congruence.
Qed.

Lemma before_underscore_app (c r : string) :
  contains "_" c = false ->
  before_underscore (c ++ String "_"%char r) = c.
Proof.
  induction c as [| ch c IH].
  - reflexivity.
  - rewrite contains_underscore_cons. intros H.
    apply orb_false_iff in H. destruct H as [H1 H2].
    cbn [append before_underscore]. rewrite H1, IH by assumption. reflexivity.
Qed.

Lemma before_underscore_none (c : string) :
  contains "_" c = false -> before_underscore c = c.
Proof.
  induction c as [| ch c IH]; [reflexivity |].
  rewrite contains_underscore_cons. intros H.
  apply orb_false_iff in H. destruct H as [H1 H2].
  cbn [before_underscore]. rewrite H1, IH by assumption. reflexivity.
Qed.


